(** * Pisces: routing, parameter binding and response mutation

    A shallow embedding of [pisces/__init__.py]: the [Route] pattern compiler
    and matcher, the [Router], the argument providers and response consumers,
    and the [AppContainer] dispatcher, followed by the properties the
    specification states about them.

    Conventions.
    - Python [str] is [string]; [None] is the constructor [VNone] of [Value].
    - The code is Python 2 ([functools.partial] objects whose [keywords]
      may be [None], strings given to [base64.b32encode] in the demo). A
      [dict] is a [gmap], and [dict.items()] is the list [map_to_list]: a
      snapshot, so deleting while iterating is allowed.
    - The standard [re] module is embedded for the fragment of its syntax
      described in [Module re]; a pattern outside it (or one that [re]
      rejects) has no compiled form.
    - werkzeug's [Request] and [Response] are records holding what the code
      reads and writes. *)

From Stdlib Require Import Ascii String List Bool Arith NArith Lia.
From Stdlib Require DecimalString DecimalZ.
From stdpp Require Import base option list gmap strings fin_maps fin_sets.

Local Open Scope stdpp_scope.

(** ** Python values and outcomes *)

(** The values that flow through the framework: [None] and text. *)
Inductive Value : Type :=
| VNone
| VStr (s : string).

#[global] Instance Value_eq_dec : EqDecision Value.
Proof. solve_decision. Defined.

(** [d.get(k)] on a mapping of strings: the value, or [None]. *)
Definition dict_get (d : gmap string string) (k : string) : Value :=
  match d !! k with
  | Some v => VStr v
  | None => VNone
  end.

(** The exceptions that leave the framework. *)
Inductive Exception : Type :=
| AttributeError
| TypeError
| NotFound.

#[global] Instance Exception_eq_dec : EqDecision Exception.
Proof. solve_decision. Defined.

(** A computation that returns or raises. *)
Inductive Outcome (A : Type) : Type :=
| Ok (a : A)
| Raise (e : Exception).
Arguments Ok {A} a.
Arguments Raise {A} e.

#[global] Instance Outcome_ret : MRet Outcome := fun _ a => Ok a.
#[global] Instance Outcome_bind : MBind Outcome := fun _ _ f m =>
  match m with
  | Ok a => f a
  | Raise e => Raise e
  end.

(** ** Strings *)

Definition newline : ascii := "010"%char.

Fixpoint str_drop (n : nat) (s : string) : string :=
  match n, s with
  | 0, _ => s
  | S n', String _ s' => str_drop n' s'
  | S _, EmptyString => EmptyString
  end.

Fixpoint str_take (n : nat) (s : string) : string :=
  match n, s with
  | 0, _ => EmptyString
  | S n', String c s' => String c (str_take n' s')
  | S _, EmptyString => EmptyString
  end.

(** [s[i:j]] for [i <= j]. *)
Definition slice (i j : nat) (s : string) : string :=
  str_take (j - i) (str_drop i s).

Fixpoint str_forall (p : ascii -> bool) (s : string) : bool :=
  match s with
  | EmptyString => true
  | String c s' => p c && str_forall p s'
  end.

(** The one-character strings of [s]: Python's [set(s)] for a string. *)
Fixpoint chars (s : string) : list string :=
  match s with
  | EmptyString => []
  | String c s' => String c EmptyString :: chars s'
  end.

(** [s.split("__", 1)]: the text before and after the first (leftmost)
    ["__"], or [None] when [s] has no ["__"] (the two-name unpacking of the
    one-element result raises [ValueError] there). *)
Fixpoint split2 (s : string) : option (string * string) :=
  match s with
  | EmptyString => None
  | String c s' =>
      match c, s' with
      | "_"%char, String "_"%char rest => Some (EmptyString, rest)
      | _, _ =>
          match split2 s' with
          | Some (k, v) => Some (String c k, v)
          | None => None
          end
      end
  end.

Definition in_range (lo hi : N) (c : ascii) : bool :=
  let n := N_of_ascii c in (lo <=? n)%N && (n <=? hi)%N.

Definition is_digit (c : ascii) : bool := in_range 48 57 c.
Definition is_alpha (c : ascii) : bool := in_range 65 90 c || in_range 97 122 c.
Definition is_alnum (c : ascii) : bool := is_alpha c || is_digit c.
Definition is_name_start (c : ascii) : bool := is_alpha c || Ascii.eqb c "_"%char.
Definition is_name_char (c : ascii) : bool := is_alnum c || Ascii.eqb c "_"%char.

(** [sre_parse.isname]: a group name is an identifier. *)
Definition isname (s : string) : bool :=
  match s with
  | EmptyString => false
  | String c s' => is_name_start c && str_forall is_name_char s'
  end.

(** ** The [re] module

    The fragment embedded here: literal characters, [\c] for a
    non-alphanumeric [c], [.], the anchors [^] and [$], the greedy
    quantifiers [*], [+] and [?] on a single character or [.], and groups
    [( ... )] and [(?P<name> ... )] that are not themselves repeated.
    Alternation, character classes, counted and lazy repetition, the other
    [(?...)] extensions and alphanumeric escapes are left out: [compile]
    answers [None] on them, as it does on a pattern [re] rejects. *)
Module re.

Inductive atom : Type :=
| Lit (c : ascii)
| AnyChar.

Inductive quant : Type :=
| One
| Star
| Plus
| Opt.

(** The compiled program: a sequence of operations. *)
Inductive op : Type :=
| Match (a : atom) (q : quant)
| Open (name : option string)
| Close
| Bol
| Eol.

#[global] Instance atom_eq_dec : EqDecision atom.
Proof. solve_decision. Defined.
#[global] Instance quant_eq_dec : EqDecision quant.
Proof. solve_decision. Defined.
#[global] Instance op_eq_dec : EqDecision op.
Proof. solve_decision. Defined.

(** *** Parsing *)

Inductive mode : Type :=
| Normal
| Escaped
| GroupStart
| GroupQ
| GroupP
| GroupName (acc : string).

(** Parser state: the operations read so far (latest first), the mode, and
    whether the latest operation is a character that a quantifier may
    follow. *)
Record pstate : Type := mk_pstate {
  out : list op;
  pmode : mode;
  quantifiable : bool
}.

Definition push (o : op) (q : bool) (st : pstate) : pstate :=
  mk_pstate (o :: out st) Normal q.

Definition requantify (q : quant) (st : pstate) : option pstate :=
  match quantifiable st, out st with
  | true, Match a One :: rest => Some (mk_pstate (Match a q :: rest) Normal false)
  | _, _ => None
  end.

Definition step_normal (st : pstate) (c : ascii) : option pstate :=
  match c with
  | "\"%char => Some (mk_pstate (out st) Escaped false)
  | "."%char => Some (push (Match AnyChar One) true st)
  | "^"%char => Some (push Bol false st)
  | "$"%char => Some (push Eol false st)
  | "("%char => Some (mk_pstate (out st) GroupStart false)
  | ")"%char => Some (push Close false st)
  | "*"%char => requantify Star st
  | "+"%char => requantify Plus st
  | "?"%char => requantify Opt st
  | "|"%char | "["%char | "{"%char => None
  | _ => Some (push (Match (Lit c) One) true st)
  end.

Definition step (st : pstate) (c : ascii) : option pstate :=
  match pmode st with
  | Normal => step_normal st c
  | Escaped =>
      if is_alnum c then None else Some (push (Match (Lit c) One) true st)
  | GroupStart =>
      if Ascii.eqb c "?"%char then Some (mk_pstate (out st) GroupQ false)
      else step_normal (push (Open None) false st) c
  | GroupQ =>
      if Ascii.eqb c "P"%char then Some (mk_pstate (out st) GroupP false) else None
  | GroupP =>
      if Ascii.eqb c "<"%char then Some (mk_pstate (out st) (GroupName EmptyString) false)
      else None
  | GroupName acc =>
      if Ascii.eqb c ">"%char then
        if isname acc then Some (push (Open (Some acc)) false st) else None
      else Some (mk_pstate (out st) (GroupName (acc +:+ String c EmptyString)) false)
  end.

Fixpoint steps (st : pstate) (s : string) : option pstate :=
  match s with
  | EmptyString => Some st
  | String c s' =>
      match step st c with
      | Some st' => steps st' s'
      | None => None
      end
  end.

(** Parentheses balance: every [Close] has its [Open], none is left open. *)
Fixpoint balanced (depth : nat) (p : list op) : bool :=
  match p with
  | [] => Nat.eqb depth 0
  | Open _ :: k => balanced (S depth) k
  | Close :: k =>
      match depth with
      | 0 => false
      | S d => balanced d k
      end
  | _ :: k => balanced depth k
  end.

(** The names of the named groups, in order of appearance. *)
Fixpoint group_names (p : list op) : list string :=
  match p with
  | [] => []
  | Open (Some n) :: k => n :: group_names k
  | _ :: k => group_names k
  end.

(** A compiled pattern. *)
Record Pattern : Type := mk_Pattern {
  pattern : string;
  prog : list op
}.

Definition initial : pstate := mk_pstate [] Normal false.

(** [re.compile(p)], [None] for [re.error] or a pattern outside the
    fragment. *)
Definition compile (p : string) : option Pattern :=
  match steps initial p with
  | Some st =>
      match pmode st with
      | Normal =>
          let ops := rev (out st) in
          if balanced 0 ops && bool_decide (NoDup (group_names ops))
          then Some (mk_Pattern p ops)
          else None
      | _ => None
      end
  | None => None
  end.

(** *** Matching *)

Definition atom_matches (a : atom) (c : ascii) : bool :=
  match a with
  | Lit c' => Ascii.eqb c' c
  | AnyChar => negb (Ascii.eqb c newline)
  end.

(** How many leading characters of [s] the atom matches. *)
Fixpoint span (a : atom) (s : string) : nat :=
  match s with
  | EmptyString => 0
  | String c s' => if atom_matches a c then S (span a s') else 0
  end.

Definition qmin (q : quant) : nat :=
  match q with
  | One | Plus => 1
  | Star | Opt => 0
  end.

(** The most repetitions a quantifier takes of [n] available ones. *)
Definition qcap (q : quant) (n : nat) : nat :=
  match q with
  | One | Opt => Nat.min 1 n
  | Star | Plus => n
  end.

(** Greedy repetition: try [lo + n] repetitions, then one fewer, down to
    [lo]; the first count for which the rest of the program matches wins. *)
Fixpoint backtrack {A : Type} (f : nat -> option A) (lo n : nat) : option A :=
  match f (lo + n) with
  | Some r => Some r
  | None =>
      match n with
      | 0 => None
      | S n' => backtrack f lo n'
      end
  end.

(** [$] matches at the end of the string and just before a newline that
    ends it. *)
Definition at_end (rest : string) : bool :=
  match rest with
  | EmptyString => true
  | String c EmptyString => Ascii.eqb c newline
  | _ => false
  end.

(** Run the program on [s0] from position [pos]; [opens] are the start
    positions of the groups entered and not yet left, [caps] the text of
    the named groups left so far. *)
Fixpoint exec (s0 : string) (p : list op) (pos : nat)
    (opens : list (option string * nat)) (caps : gmap string string)
    : option (gmap string string) :=
  match p with
  | [] => Some caps
  | Bol :: k => if Nat.eqb pos 0 then exec s0 k pos opens caps else None
  | Eol :: k => if at_end (str_drop pos s0) then exec s0 k pos opens caps else None
  | Open g :: k => exec s0 k pos ((g, pos) :: opens) caps
  | Close :: k =>
      match opens with
      | (Some n, start) :: opens' =>
          exec s0 k pos opens' (<[n := slice start pos s0]> caps)
      | (None, _) :: opens' => exec s0 k pos opens' caps
      | [] => None
      end
  | Match a q :: k =>
      let n := qcap q (span a (str_drop pos s0)) in
      if n <? qmin q then None
      else backtrack (fun j => exec s0 k (pos + j) opens caps) (qmin q) (n - qmin q)
  end.

(** [pattern.match(s)]: the text of the named groups, or [None]. A group
    that took no part in the match is absent from the result. *)
Definition match_ (r : Pattern) (s : string) : option (gmap string string) :=
  exec s (prog r) 0 [] ∅.

(** [m.groupdict()]: every named group of the pattern, with [None] for one
    that took no part. *)
Definition groupdict (r : Pattern) (m : gmap string string) : gmap string Value :=
  list_to_map (map (fun n => (n, dict_get m n)) (group_names (prog r))).

(** The substitution [re.sub] performs in [Route._compile_regex]: every
    leftmost angle-bracketed run (an opening bracket, the shortest run
    without a newline, a closing bracket) becomes a named group of that
    name holding a dot-star. [acc] is [None] outside a candidate and the
    text read since its opening bracket inside one. A candidate cut by a
    newline or by the end of the text is copied as it is. *)
Fixpoint sub_angle (acc : option string) (s : string) : string :=
  match s with
  | EmptyString =>
      match acc with
      | None => EmptyString
      | Some a => String "<"%char a
      end
  | String c s' =>
      match acc with
      | None =>
          if Ascii.eqb c "<"%char then sub_angle (Some EmptyString) s'
          else String c (sub_angle None s')
      | Some a =>
          if Ascii.eqb c ">"%char then "(?P<" +:+ a +:+ ">.*)" +:+ sub_angle None s'
          else if Ascii.eqb c newline
          then String "<"%char a +:+ String c (sub_angle None s')
          else sub_angle (Some (a +:+ String c EmptyString)) s'
      end
  end.

End re.

(** ** werkzeug's request and response, as far as the code uses them *)

Module Request.
Record t : Type := mk {
  path : string;
  method : string;
  args : gmap string string;
  form : gmap string string;
  cookies : gmap string string
}.
End Request.

(** What [set_cookie] and [delete_cookie] record on a response. *)
Inductive CookieOp : Type :=
| SetCookie (name : string) (value : Value)
| DeleteCookie (name : string).

#[global] Instance CookieOp_eq_dec : EqDecision CookieOp.
Proof. solve_decision. Defined.

(** A response body: nothing yet, or the JSON document of a mapping. The
    document is kept in structured form. *)
Inductive Body : Type :=
| EmptyBody
| JsonObject (m : gmap string Value).

Definition json_dumps (m : gmap string Value) : Body := JsonObject m.

Module Response.
Record t : Type := mk {
  mimetype : string;
  cookie_ops : list CookieOp;
  data : Body
}.

(** [Response(mimetype=m)] *)
Definition __init__ (m : string) : t := mk m [] EmptyBody.

Definition set_cookie (r : t) (key : string) (value : Value) : t :=
  mk (mimetype r) (cookie_ops r ++ [SetCookie key value]) (data r).

Definition delete_cookie (r : t) (key : string) : t :=
  mk (mimetype r) (cookie_ops r ++ [DeleteCookie key]) (data r).

Definition set_data (r : t) (b : Body) : t :=
  mk (mimetype r) (cookie_ops r) b.

(** The state of the cookie [name] after the recorded operations: the
    latest operation on that name, if any. *)
Fixpoint cookie_state (ops : list CookieOp) (name : string) : option CookieOp :=
  match ops with
  | [] => None
  | o :: ops' =>
      match cookie_state ops' name with
      | Some o' => Some o'
      | None =>
          match o with
          | SetCookie n _ | DeleteCookie n =>
              if bool_decide (n = name) then Some o else None
          end
      end
  end.
End Response.

(** ** Handlers: Python callables and their invocation *)

Module Function.

(** [inspect.getargspec(f)]: the positional names (with [self] for a bound
    method), the names of the star and double-star parameters, and the
    defaults of the last positional names. *)
Record ArgSpec : Type := mk_ArgSpec {
  args : list string;
  varargs : option string;
  keywords : option string;
  defaults : list Value
}.

(** A callable: its signature and what it returns ([None] of the option is
    Python's [None]) on the keyword arguments it is entered with. *)
Record t : Type := mk {
  argspec : ArgSpec;
  body : gmap string Value -> option (gmap string Value)
}.

(** The parameters a keyword call has to fill, each with its default; the
    receiver of a bound method is filled already. *)
Definition formals (s : ArgSpec) : list (string * option Value) :=
  let n := length (args s) - length (defaults s) in
  filter (fun p => p.1 ≠ "self")
    (zip (args s) (replicate n None ++ (Some <$> defaults s))).

Fixpoint bind_formals (fs : list (string * option Value))
    (kwargs : gmap string Value) : option (gmap string Value) :=
  match fs with
  | [] => Some ∅
  | (a, d) :: fs' =>
      match (match kwargs !! a with Some v => Some v | None => d end) with
      | Some v =>
          match bind_formals fs' kwargs with
          | Some env => Some (<[a := v]> env)
          | None => None
          end
      | None => None
      end
  end.

(** [f( **kwargs )]: a keyword the signature does not take (when there is
    no double-star parameter), a second value for the receiver, or a
    parameter left without value or default raises [TypeError]. *)
Definition call (f : t) (kwargs : gmap string Value)
    : Outcome (option (gmap string Value)) :=
  let fs := formals (argspec f) in
  let extras := filter (fun kv => kv.1 ∉ fs.*1) kwargs in
  if bool_decide ("self" ∈ args (argspec f)) && bool_decide (is_Some (kwargs !! "self"))
  then Raise TypeError
  else if bool_decide (extras ≠ ∅) && bool_decide (keywords (argspec f) = None)
  then Raise TypeError
  else
    match bind_formals fs kwargs with
    | Some env => Ok (body f (env ∪ extras))
    | None => Raise TypeError
    end.

End Function.

(** [functools.partial(func, **keywords)]; [keywords] is [None] when the
    partial was made without keyword arguments. *)
Module partial.
Record t : Type := mk {
  func : Function.t;
  keywords : option (gmap string Value)
}.

(** Calling the partial: the call's keywords over the stored ones. *)
Definition call (p : t) (kwargs : gmap string Value)
    : Outcome (option (gmap string Value)) :=
  Function.call (func p) (kwargs ∪ default ∅ (keywords p)).
End partial.

(** An attribute of an endpoint instance, as a route looks it up: a bound
    method, or [None]. A handler reference names a callable; attributes of
    other kinds are not modelled. *)
Inductive Attr : Type :=
| AttrNone
| AttrMethod (f : Function.t).

(** [getattr(instance, name)] on an instance given by its attributes. *)
Definition getattr (instance : gmap string Attr) (name : string) : Outcome Attr :=
  match instance !! name with
  | Some a => Ok a
  | None => Raise AttributeError
  end.

(** ** [pisces] *)

Definition ALL_METHODS : list string := ["GET"; "POST"].

Module Route.

Record t : Type := mk {
  _url : string;
  _re : re.Pattern;
  _instance : gmap string Attr;
  _callback : string;
  _methods : list string
}.

Definition _compile_regex (url : string) : option re.Pattern :=
  let to_match := re.sub_angle None url in
  re.compile ("^" +:+ to_match +:+ "$").

(** [Route(url, instance, method_str, methods)]; there is no route when
    the pattern does not compile. *)
Definition __init__ (url : string) (instance : gmap string Attr)
    (method_str : string) (methods : option (list string)) : option t :=
  match _compile_regex url with
  | Some r =>
      Some (mk url r instance method_str
              (match methods with
               | None => ALL_METHODS
               | Some ms => ms
               end))
  | None => None
  end.

Definition _match (self : t) (route : string) : option (gmap string Value) :=
  match re.match_ (_re self) route with
  | Some m => Some (re.groupdict (_re self) m)
  | None => None
  end.

Definition handles_route (self : t) (route method : string) : bool :=
  bool_decide (_match self route ≠ None) && bool_decide (method ∈ _methods self).

(** Unpacking [params] comes last: [getattr] and the [None] test raise
    before it. *)
Definition handle (self : t) (route : string) : Outcome partial.t :=
  let params := _match self route in
  method ← getattr (_instance self) (_callback self);
  match method with
  | AttrNone => Raise AttributeError
  | AttrMethod f =>
      match params with
      | Some kw => Ok (partial.mk f (Some kw))
      | None => Raise TypeError
      end
  end.

End Route.

Module Router.

Record t : Type := mk {
  endpoints : list Route.t
}.

Fixpoint match_endpoints (es : list Route.t) (route method : string)
    : Outcome (option partial.t) :=
  match es with
  | [] => Ok None
  | endpoint :: es' =>
      if Route.handles_route endpoint route method
      then p ← Route.handle endpoint route; Ok (Some p)
      else match_endpoints es' route method
  end.

Definition match_ (self : t) (route method : string) : Outcome (option partial.t) :=
  match_endpoints (endpoints self) route method.

End Router.

Module ArgProvider.
Record t : Type := mk {
  get_prefix : string;
  get_value : Request.t -> string -> Value
}.
End ArgProvider.

Module ResponseConsumer.
Record t : Type := mk {
  get_prefix : string;
  set_value : Response.t -> string -> Value -> Response.t
}.
End ResponseConsumer.

Definition GetProvider : ArgProvider.t :=
  ArgProvider.mk "get" (fun request param => dict_get (Request.args request) param).

Definition PostProvider : ArgProvider.t :=
  ArgProvider.mk "post" (fun request param => dict_get (Request.form request) param).

Definition CookieProvider : ArgProvider.t :=
  ArgProvider.mk "cookie" (fun request param => dict_get (Request.cookies request) param).

Module CookieHandler.

Record t : Type := mk {
  _cookie_name : string
}.

Definition _prefix : string := "cookie".

(** [CookieHandler()] *)
Definition default : t := mk "pisces_cookie".

Definition get_prefix (self : t) : string := _prefix.

Definition get_value (self : t) (request : Request.t) (param : string) : Value :=
  dict_get (Request.cookies request) param.

Definition set_value (self : t) (response : Response.t) (key : string)
    (value : Value) : Response.t :=
  match value with
  | VNone => Response.delete_cookie response key
  | _ => Response.set_cookie response (_cookie_name self) value
  end.

(** The handler under each of its two base classes. *)
Definition as_provider (self : t) : ArgProvider.t :=
  ArgProvider.mk (get_prefix self) (get_value self).

Definition as_consumer (self : t) : ResponseConsumer.t :=
  ResponseConsumer.mk (get_prefix self) (set_value self).

End CookieHandler.

Module AppContainer.

Record t : Type := mk {
  _routes : list Router.t;
  _arg_providers : list ArgProvider.t;
  _consumers : list ResponseConsumer.t
}.

Definition __init__ (router : Router.t) (providers : option (list ArgProvider.t))
    (consumers : option (list ResponseConsumer.t)) : t :=
  mk [router]
     (match providers with
      | None => [PostProvider; GetProvider;
                 CookieHandler.as_provider CookieHandler.default]
      | Some ps => ps
      end)
     (match consumers with
      | None => [CookieHandler.as_consumer CookieHandler.default]
      | Some cs => cs
      end).

(** The prefix table: a later provider replaces an earlier one of the same
    prefix. *)
Definition request_lookup_table (providers : list ArgProvider.t)
    : gmap string ArgProvider.t :=
  foldl (fun table provider => <[ArgProvider.get_prefix provider := provider]> table)
    ∅ providers.

Definition consumer_map (consumers : list ResponseConsumer.t)
    : gmap string ResponseConsumer.t :=
  foldl (fun table consumer => <[ResponseConsumer.get_prefix consumer := consumer]> table)
    ∅ consumers.

(** The names left to resolve: the signature without the URL captures and
    without [self]. The name of a double-star parameter enters the
    signature as the set of its characters, as [set(argspec.keywords)]
    builds it. *)
Definition remaining_args (method : partial.t) : gset string :=
  let passed_in_from_url_match : gset string :=
    match partial.keywords method with
    | Some kw => dom kw
    | None => ∅
    end in
  let argspec := Function.argspec (partial.func method) in
  let signature : gset string :=
    list_to_set (Function.args argspec) ∪
    match Function.keywords argspec with
    | Some k => list_to_set (chars k)
    | None => ∅
    end in
  (signature ∖ passed_in_from_url_match) ∖ {["self"]}.

(** One turn of the loop over [remaining_args]. *)
Definition extract_one (table : gmap string ArgProvider.t) (request : Request.t)
    (extra_params : gmap string Value) (param : string) : gmap string Value :=
  match split2 param with
  | Some (key, value) =>
      match table !! key with
      | Some provider =>
          <[param := ArgProvider.get_value provider request value]> extra_params
      | None => extra_params
      end
  | None => extra_params
  end.

Definition _extract_params_from_request (self : t) (method : partial.t)
    (request : Request.t) : gmap string Value :=
  let table := request_lookup_table (_arg_providers self) in
  foldl (extract_one table request) ∅ (elements (remaining_args method)).

(** One turn of the loop over [json_obj.items()]: the mapping and the
    response are both updated in place. *)
Definition mutate_one (cmap : gmap string ResponseConsumer.t)
    (st : gmap string Value * Response.t) (item : string * Value)
    : gmap string Value * Response.t :=
  let '(key, value) := item in
  match split2 key with
  | None => st
  | Some (cmd, param) =>
      match cmap !! cmd with
      | Some consumer =>
          (delete key st.1, ResponseConsumer.set_value consumer st.2 param value)
      | None => st
      end
  end.

Definition apply_consumer_mutations (self : t) (json_obj : gmap string Value)
    (response : Response.t) : gmap string Value * Response.t :=
  foldl (mutate_one (consumer_map (_consumers self))) (json_obj, response)
    (map_to_list json_obj).

(** The loop of [wsgi_app] over the routers; falling out of it raises
    [NotFound]. *)
Fixpoint dispatch (self : t) (routes : list Router.t) (request : Request.t)
    : Outcome Response.t :=
  match routes with
  | [] => Raise NotFound
  | route :: rest =>
      method ← Router.match_ route (Request.path request) (Request.method request);
      match method with
      | None => dispatch self rest request
      | Some method =>
          let extra_params := _extract_params_from_request self method request in
          value_map ← partial.call method extra_params;
          match value_map with
          | Some value_map =>
              let response := Response.__init__ "application/json" in
              let '(value_map, response) :=
                apply_consumer_mutations self value_map response in
              Ok (Response.set_data response (json_dumps value_map))
          | None => dispatch self rest request
          end
      end
  end.

Definition wsgi_app (self : t) (request : Request.t) : Outcome Response.t :=
  dispatch self (_routes self) request.

End AppContainer.

(** ** The demo application: [base64.b32encode], the data store and the
    shortening service of [demo/app.py] *)

Module base64.

(** The base 32 alphabet: the letter or digit of the five-bit number
    [b4 b3 b2 b1 b0] (most significant bit first). *)
Definition b32tab (b4 b3 b2 b1 b0 : bool) : ascii :=
  let i := (N.b2n b4 * 16 + N.b2n b3 * 8 + N.b2n b2 * 4 + N.b2n b1 * 2 + N.b2n b0)%N in
  if (i <? 26)%N then ascii_of_N (65 + i) else ascii_of_N (50 + (i - 26)).

(** One quantum: the forty bits of five characters, most significant
    first, taken five at a time. ([Ascii] lists the bits of a character
    from the least significant.) *)
Definition quantum (a b c d e : ascii) : string :=
  let '(Ascii a0 a1 a2 a3 a4 a5 a6 a7) := a in
  let '(Ascii b0 b1 b2 b3 b4 b5 b6 b7) := b in
  let '(Ascii c0 c1 c2 c3 c4 c5 c6 c7) := c in
  let '(Ascii d0 d1 d2 d3 d4 d5 d6 d7) := d in
  let '(Ascii e0 e1 e2 e3 e4 e5 e6 e7) := e in
  String (b32tab a7 a6 a5 a4 a3)
    (String (b32tab a2 a1 a0 b7 b6)
       (String (b32tab b5 b4 b3 b2 b1)
          (String (b32tab b0 c7 c6 c5 c4)
             (String (b32tab c3 c2 c1 c0 d7)
                (String (b32tab d6 d5 d4 d3 d2)
                   (String (b32tab d1 d0 e7 e6 e5)
                      (String (b32tab e4 e3 e2 e1 e0) EmptyString))))))).

Definition zero : ascii := "000"%char.

(** [base64.b32encode(s)]: whole quanta of five characters, then the
    leftover characters filled up with zero characters, their quantum cut
    and padded with equals signs. *)
Fixpoint b32encode (s : string) : string :=
  match s with
  | EmptyString => EmptyString
  | String a EmptyString =>
      str_take 2 (quantum a zero zero zero zero) +:+ "======"
  | String a (String b EmptyString) =>
      str_take 4 (quantum a b zero zero zero) +:+ "===="
  | String a (String b (String c EmptyString)) =>
      str_take 5 (quantum a b c zero zero) +:+ "==="
  | String a (String b (String c (String d EmptyString))) =>
      str_take 7 (quantum a b c d zero) +:+ "="
  | String a (String b (String c (String d (String e rest)))) =>
      quantum a b c d e +:+ b32encode rest
  end.

End base64.

(** The commands of the [redis] client the service uses, on the contents
    of the store: a mapping from keys to strings. *)
Module redis.

(** The decimal text of an integer. *)
Definition decimal (z : Z) : string :=
  DecimalString.NilZero.string_of_int (Z.to_int z).

(** The integer a stored string stands for: the string has to be the
    decimal text of a 64-bit signed integer. *)
Definition integer (s : string) : option Z :=
  match DecimalString.NilZero.int_of_string s with
  | Some d =>
      let z := Z.of_int d in
      if String.eqb (decimal z) s && (- 2 ^ 63 <=? z)%Z && (z <? 2 ^ 63)%Z
      then Some z else None
  | None => None
  end.

(** [set(name, value)] *)
Definition set (db : gmap string string) (name value : string) : gmap string string :=
  <[name := value]> db.

(** [get(name)]: the value, or [None]. *)
Definition get (db : gmap string string) (name : string) : Value := dict_get db name.

(** [incr(name)]: a missing key counts as zero; the new store and the new
    value, or no result when the server answers with an error (the value is
    not an integer, or the increment leaves the 64-bit range). *)
Definition incr (db : gmap string string) (name : string)
    : option (gmap string string * Z) :=
  match (match db !! name with Some s => integer s | None => Some 0%Z end) with
  | Some z =>
      if (z + 1 <? 2 ^ 63)%Z then Some (<[name := decimal (z + 1)]> db, (z + 1)%Z)
      else None
  | None => None
  end.

End redis.

(** [ShorteningService], with the contents of its backend passed in and
    out. *)
Module ShorteningService.

Definition hash_link (link : string) : string := base64.b32encode link.

Definition persist_hash_link_pair (db : gmap string string) (short_id link : string)
    : gmap string string :=
  redis.set db ("url-target:" +:+ short_id) link.

Definition track_view (db : gmap string string) (short_id : string)
    : option (gmap string string) :=
  fst <$> redis.incr db ("click-count:" +:+ short_id).

Definition get_view_count (db : gmap string string) (short_id : string) : Value :=
  redis.get db ("click-count:" +:+ short_id).

Definition get_url_by_hash (db : gmap string string) (short_id : string) : Value :=
  redis.get db ("url-target:" +:+ short_id).

End ShorteningService.

(** [ShorteningEndpoint]: each handler takes the store and its arguments
    and answers with the store and the mapping it returns; there is no
    answer when the handler raises. *)
Module ShorteningEndpoint.

Definition index (db : gmap string string)
    : option (gmap string string * gmap string Value) :=
  Some (db, {[ "message" := VStr "WELCOME" ]}).

(** [b32encode] raises on [None]. *)
Definition new_url (db : gmap string string) (post__url : Value)
    : option (gmap string string * gmap string Value) :=
  match post__url with
  | VStr link =>
      let short_id := ShorteningService.hash_link link in
      let db := ShorteningService.persist_hash_link_pair db short_id link in
      Some (db, {[ "hash" := VStr short_id ]})
  | VNone => None
  end.

Definition follow_url (db : gmap string string) (short_id : string)
    : option (gmap string string * gmap string Value) :=
  let url := ShorteningService.get_url_by_hash db short_id in
  match ShorteningService.track_view db short_id with
  | Some db => Some (db, {[ "url" := url ]})
  | None => None
  end.

Definition details (db : gmap string string) (short_id : string)
    : option (gmap string string * gmap string Value) :=
  let count := ShorteningService.get_view_count db short_id in
  let url := ShorteningService.get_url_by_hash db short_id in
  Some (db, <["count" := count]> {[ "url" := url ]}).

End ShorteningEndpoint.

(** ** The demo application: the routes of [demo/app.py] *)

Module demo.

(** [root_router], for the endpoint instance the object graph provides;
    there is no router if one of the four patterns does not compile. *)
Definition root_router (short_endpoint : gmap string Attr) : option Router.t :=
  r1 ← Route.__init__ "/" short_endpoint "index" (Some ["GET"]);
  r2 ← Route.__init__ "/" short_endpoint "new_url" (Some ["POST"]);
  r3 ← Route.__init__ "/<short_id>\+" short_endpoint "details" None;
  r4 ← Route.__init__ "/<short_id>" short_endpoint "follow_url" None;
  Some (Router.mk [r1; r2; r3; r4]).

(** [app_container] *)
Definition app_container (short_endpoint : gmap string Attr) : option AppContainer.t :=
  router ← root_router short_endpoint;
  Some (AppContainer.__init__ router None None).

End demo.

(** * Vocabulary of the properties *)

Definition nl : string := String newline EmptyString.

(** The handler a route's callback names on its instance, if any. *)
Definition resolve (r : Route.t) : option Function.t :=
  match Route._instance r !! Route._callback r with
  | Some (AttrMethod f) => Some f
  | _ => None
  end.

(** A handler that returns [None]. *)
Definition returns_none : Function.t :=
  Function.mk (Function.mk_ArgSpec ["self"] None None []) (fun _ => None).

(** A router declines a request when none of its endpoints handles the
    route, or when the first that does resolves its handler and the
    handler, called with the bound parameters, returns [None]. *)
Definition declines (app : AppContainer.t) (request : Request.t)
    (router : Router.t) : Prop :=
  match list_find (fun e => Route.handles_route e (Request.path request)
                              (Request.method request) = true)
          (Router.endpoints router) with
  | None => True
  | Some (_, e) =>
      ∃ m, Route.handle e (Request.path request) = Ok m
           ∧ partial.call m (AppContainer._extract_params_from_request app m request)
             = Ok None
  end.

(** The provider registered for a prefix: the last of that prefix in the
    list given to the container. *)
Definition registered (providers : list ArgProvider.t) (prefix : string)
    : option ArgProvider.t :=
  last (filter (fun p => ArgProvider.get_prefix p = prefix) providers).

(** The URL captures a deferred invocation carries. *)
Definition url_captures (m : partial.t) : gmap string Value :=
  default ∅ (partial.keywords m).

(** What the binder finds for one parameter name. *)
Definition lookup_param (providers : list ArgProvider.t) (request : Request.t)
    (param : string) : option Value :=
  match split2 param with
  | Some (providerPrefix, key) =>
      match registered providers providerPrefix with
      | Some provider => Some (ArgProvider.get_value provider request key)
      | None => None
      end
  | None => None
  end.



(** The consumer registered for a prefix: the last of that prefix in the
    container's list. *)
Definition consumer_for (consumers : list ResponseConsumer.t) (prefix : string)
    : option ResponseConsumer.t :=
  last (filter (fun c => ResponseConsumer.get_prefix c = prefix) consumers).

(** What a key of the result mapping asks for: a consumer and the text
    after the first double underscore, when the text before it is the
    prefix of a registered consumer. *)
Definition directive (consumers : list ResponseConsumer.t) (key : string)
    : option (ResponseConsumer.t * string) :=
  match split2 key with
  | Some (cmd, param) =>
      match consumer_for consumers cmd with
      | Some consumer => Some (consumer, param)
      | None => None
      end
  | None => None
  end.

(** The effect of one item of the mapping on the response. *)
Definition apply_item (consumers : list ResponseConsumer.t) (response : Response.t)
    (item : string * Value) : Response.t :=
  match directive consumers item.1 with
  | Some (consumer, param) => ResponseConsumer.set_value consumer response param item.2
  | None => response
  end.

(** A template cut into its pieces. *)
Inductive segment : Type :=
| Text (s : string)
| Placeholder (name : string).

Definition render (seg : segment) : string :=
  match seg with
  | Text s => s
  | Placeholder n => "<" +:+ n +:+ ">"
  end.

(** The template as the programmer writes it. *)
Fixpoint template (segs : list segment) : string :=
  match segs with
  | [] => ""
  | seg :: k => render seg +:+ template k
  end.

Fixpoint placeholders (segs : list segment) : list string :=
  match segs with
  | [] => []
  | Text _ :: k => placeholders k
  | Placeholder n :: k => n :: placeholders k
  end.

(** The path a template stands for once every placeholder has a value. *)
Fixpoint substitute (segs : list segment) (vals : list string) : string :=
  match segs with
  | [] => ""
  | Text s :: k => s +:+ substitute k vals
  | Placeholder _ :: k =>
      match vals with
      | v :: vs => v +:+ substitute k vs
      | [] => substitute k []
      end
  end.

(** The characters [sre_parse] gives a meaning to. *)
Definition special (c : ascii) : bool :=
  match c with
  | "."%char | "\"%char | "["%char | "{"%char | "("%char | ")"%char
  | "*"%char | "+"%char | "?"%char | "^"%char | "$"%char | "|"%char => true
  | _ => false
  end.

(** Literal text that neither [re] nor the placeholder substitution reads
    as syntax. *)
Definition plain_char (c : ascii) : bool := negb (special c) && negb (Ascii.eqb c "<"%char).
Definition plain (s : string) : bool := str_forall plain_char s.

Definition segment_ok (seg : segment) : bool :=
  match seg with
  | Text s => plain s
  | Placeholder n => isname n
  end.

Definition well_formed (segs : list segment) : Prop :=
  forallb segment_ok segs = true ∧ NoDup (placeholders segs).

Definition no_newline (s : string) : bool :=
  str_forall (fun c => negb (Ascii.eqb c newline)) s.

(** Greedy order on two choices of values: at the first placeholder where
    they differ in length, the first choice is the longer. *)
Fixpoint greedy_ge (vals vals' : list string) : Prop :=
  match vals, vals' with
  | v :: vs, v' :: vs' =>
      String.length v' < String.length v
      ∨ (String.length v = String.length v' ∧ greedy_ge vs vs')
  | _, _ => True
  end.

(** The pattern text and the program a template compiles to. *)
Definition pattern_text (seg : segment) : string :=
  match seg with
  | Text s => s
  | Placeholder n => "(?P<" +:+ n +:+ ">.*)"
  end.

Fixpoint lits (s : string) : list re.op :=
  match s with
  | EmptyString => []
  | String c s' => re.Match (re.Lit c) re.One :: lits s'
  end.

Definition seg_ops (seg : segment) : list re.op :=
  match seg with
  | Text s => lits s
  | Placeholder n => [re.Open (Some n); re.Match re.AnyChar re.Star; re.Close]
  end.

Fixpoint body_text (segs : list segment) : string :=
  match segs with
  | [] => ""
  | seg :: k => pattern_text seg +:+ body_text k
  end.

Fixpoint body_ops (segs : list segment) : list re.op :=
  match segs with
  | [] => []
  | seg :: k => seg_ops seg ++ body_ops k
  end.

(** The captures after a run: each placeholder name with its value, in
    order. *)
Definition record (caps : gmap string string) (names vals : list string)
    : gmap string string :=
  foldl (fun c nv => <[nv.1 := nv.2]> c) caps (zip names vals).

(** The template of the example, cut into its pieces. *)
Definition one_and_two : list segment :=
  [Text "/"; Placeholder "one"; Text "/and/"; Placeholder "two"].

(** The endpoint of the demo application, with the backend left out:
    [index] welcomes, [new_url] answers with the URL it was posted. *)
Definition demo_index : Function.t :=
  Function.mk (Function.mk_ArgSpec ["self"] None None [])
    (fun _ => Some {[ "message" := VStr "WELCOME" ]}).

Definition demo_new_url : Function.t :=
  Function.mk (Function.mk_ArgSpec ["self"; "post__url"] None None [])
    (fun env => Some {[ "hash" := default VNone (env !! "post__url") ]}).

Definition demo_endpoint : gmap string Attr :=
  <["index" := AttrMethod demo_index]> {[ "new_url" := AttrMethod demo_new_url ]}.

(** A plain function of the given positional names, as the tests of the
    binder define them. *)
Definition test_func (names : list string) : partial.t :=
  partial.mk (Function.mk (Function.mk_ArgSpec names None None []) (fun _ => None)) None.


(** The deferred invocation of the method [name] of an endpoint with the
    keyword arguments [kw], as a router answers it. *)
Definition deferred (endpoint : gmap string Attr) (name : string)
    (kw : gmap string Value) : Outcome (option partial.t) :=
  match endpoint !! name with
  | Some (AttrMethod f) => Ok (Some (partial.mk f (Some kw)))
  | _ => Raise AttributeError
  end.

(** The characters of a base 32 text: capital letters, the digits 2 to 7,
    and the padding sign. *)
Definition b32char (c : ascii) : bool :=
  in_range 65 90 c || in_range 50 55 c || Ascii.eqb c "="%char.

(** Shortening a list of links one after the other, each by [new_url]. *)
Definition shorten_all (db : gmap string string) (links : list string)
    : gmap string string :=
  foldl (fun db link =>
           match ShorteningEndpoint.new_url db (VStr link) with
           | Some (db', _) => db'
           | None => db
           end) db links.

(** Following a short link [n] times. *)
Fixpoint visits (n : nat) (db : gmap string string) (short_id : string)
    : option (gmap string string) :=
  match n with
  | 0 => Some db
  | S n' =>
      match ShorteningEndpoint.follow_url db short_id with
      | Some (db', _) => visits n' db' short_id
      | None => None
      end
  end.

(** * Properties *)

(** ** Basic facts about strings and outcomes *)

Lemma app_cons (c : ascii) (s t : string) : String c s +:+ t = String c (s +:+ t).
Proof. reflexivity. Qed.

Lemma app_empty_l (s : string) : "" +:+ s = s.
Proof. reflexivity. Qed.

Lemma app_empty_r (s : string) : s +:+ "" = s.
Proof. induction s as [|c s IH]; [done|]. by rewrite app_cons, IH. Qed.

Lemma app_assoc_str (s t u : string) : (s +:+ t) +:+ u = s +:+ (t +:+ u).
Proof. induction s as [|c s IH]; [done|]. by rewrite !app_cons, IH. Qed.

Lemma app_length_str (s t : string) :
  String.length (s +:+ t) = String.length s + String.length t.
Proof. induction s as [|c s IH]; [done|]. rewrite app_cons. simpl. by rewrite IH. Qed.

(** Strings in right-nested form. *)
Ltac str_norm :=
  repeat (rewrite app_assoc_str || rewrite app_cons || rewrite app_empty_l
          || rewrite app_empty_r).

(** ** The cookie consumer *)

(** With [None] the handler deletes the cookie named by the key. *)
Lemma cookie_set_value_none (h : CookieHandler.t) (response : Response.t) (key : string) :
  CookieHandler.set_value h response key VNone = Response.delete_cookie response key.
Proof. reflexivity. Qed.

(** With a value the handler sets the cookie named by its own
    [_cookie_name], whatever the key. *)
Lemma cookie_set_value_str (h : CookieHandler.t) (response : Response.t)
    (key v : string) :
  CookieHandler.set_value h response key (VStr v)
  = Response.set_cookie response (CookieHandler._cookie_name h) (VStr v).
Proof. reflexivity. Qed.

(** C1 (the code departs from the claim). The consumer of a default
    container, given the key [token] and the value [abc] on a fresh
    response, records one operation: it sets the cookie [pisces_cookie];
    the cookie [token] is left untouched. With [None] it deletes the
    cookie [token], as claimed. *)
Theorem cookie_consumer_sets_pisces_cookie :
  let response := Response.__init__ "application/json" in
  let set := CookieHandler.set_value CookieHandler.default response "token" (VStr "abc") in
  let del := CookieHandler.set_value CookieHandler.default response "token" VNone in
  Response.cookie_ops set = [SetCookie "pisces_cookie" (VStr "abc")]
  ∧ Response.cookie_state (Response.cookie_ops set) "token" = None
  ∧ Response.cookie_ops del = [DeleteCookie "token"].
Proof. repeat split; reflexivity. Qed.

(** ** Patterns with regular-expression syntax in their literal text *)

(** The skipped test of the repository: a template with raw regular
    expression syntax matches what the syntax means. *)
Lemma raw_regex_syntax_is_interpreted :
  ∃ r, Route.__init__ "/foo(.*)bar" ∅ "index" None = Some r
       ∧ Route._match r "/fooziebar" = Some ∅.
Proof. eexists. split; vm_compute; reflexivity. Qed.

(** C2 (the code departs from the claim). The template [/foo+] compiles
    with its plus sign as a quantifier: the route matches [/fooo] and does
    not match [/foo+]. *)
Theorem literal_plus_is_a_quantifier :
  ∃ r, Route.__init__ "/foo+" ∅ "index" None = Some r
       ∧ re.prog (Route._re r)
         = [re.Bol; re.Match (re.Lit "/") re.One; re.Match (re.Lit "f") re.One;
            re.Match (re.Lit "o") re.One; re.Match (re.Lit "o") re.Plus; re.Eol]
       ∧ Route._match r "/fooo" = Some ∅
       ∧ Route._match r "/foo+" = None.
Proof. eexists. repeat split; vm_compute; reflexivity. Qed.

(** ** Routes and routers *)

Lemma handles_route_spec (r : Route.t) (route method : string) :
  Route.handles_route r route method = true
  ↔ is_Some (Route._match r route) ∧ method ∈ Route._methods r.
Proof.
  unfold Route.handles_route.
  rewrite andb_true_iff, !bool_decide_eq_true.
  split; intros [H1 H2]; split; try done.
  - by destruct (Route._match r route).
  - by destruct H1 as [? ->].
Qed.

(** [Router.match] answers with the first endpoint, in order, that handles
    the route. *)
Lemma router_match_first (router : Router.t) (route method : string) :
  Router.match_ router route method
  = match list_find (fun e => Route.handles_route e route method = true)
            (Router.endpoints router) with
    | Some (_, e) => p ← Route.handle e route; Ok (Some p)
    | None => Ok None
    end.
Proof.
  unfold Router.match_. induction (Router.endpoints router) as [|e es IH]; [done|].
  cbn [Router.match_endpoints list_find]. rewrite IH.
  destruct (Route.handles_route e route method) eqn:He.
  - rewrite decide_True by done. done.
  - rewrite decide_False by done.
    destruct (list_find _ es) as [[i e']|]; done.
Qed.

Lemma router_match_none (router : Router.t) (route method : string) :
  Router.match_ router route method = Ok None
  ↔ ∀ e, e ∈ Router.endpoints router → Route.handles_route e route method = false.
Proof.
  unfold Router.match_. induction (Router.endpoints router) as [|e es IH]; simpl.
  - split; [|done]. intros _ e He. by apply elem_of_nil in He.
  - destruct (Route.handles_route e route method) eqn:He.
    + split.
      * destruct (Route.handle e route); discriminate.
      * intros H. specialize (H e (list_elem_of_here _ _)). congruence.
    + rewrite IH. split.
      * intros H e' [->|He']%elem_of_cons; auto.
      * intros H e' He'. apply H. by right.
Qed.

(** C5 (the code departs from the claim). The route of the exact template
    [/] with the default methods handles the longer path made of a slash
    and a newline: the dollar sign that ends the compiled pattern also
    matches just before a final newline. The dispatcher serves that path
    with the handler of [/]. *)
Theorem exact_route_handles_trailing_newline :
  ∃ r, Route.__init__ "/" demo_endpoint "index" None = Some r
       ∧ re.pattern (Route._re r) = "^/$"
       ∧ Route.handles_route r "/" "GET" = true
       ∧ Route.handles_route r ("/" +:+ nl) "GET" = true
       ∧ String.length ("/" +:+ nl) = 2
       ∧ AppContainer.wsgi_app (AppContainer.__init__ (Router.mk [r]) None None)
           (Request.mk ("/" +:+ nl) "GET" ∅ ∅ ∅)
         = Ok (Response.mk "application/json" []
                 (JsonObject {[ "message" := VStr "WELCOME" ]})).
Proof. eexists. repeat split; vm_compute; reflexivity. Qed.

(** C9. On a path the route matches, [handle] raises [AttributeError]
    exactly when the callback does not resolve to a method of the
    instance (the name is missing, or bound to [None]); otherwise it returns
    the partial application of the resolved method to the URL captures as
    keyword arguments. *)
Theorem handle_resolves_or_raises (r : Route.t) (route : string)
    (params : gmap string Value) :
  Route._match r route = Some params →
  (Route.handle r route = Raise AttributeError ↔ resolve r = None)
  ∧ (∀ f, resolve r = Some f →
          Route.handle r route = Ok (partial.mk f (Some params))).
Proof.
  intros Hm. unfold Route.handle, resolve, getattr. rewrite Hm.
  destruct (Route._instance r !! Route._callback r) as [[|f]|]; simpl.
  - split; [done|]. intros f; discriminate.
  - split; [split; discriminate|]. intros f' [= ->]. done.
  - split; [done|]. intros f; discriminate.
Qed.

Lemma handle_resolves_or_raises_witness :
  ∃ r, Route.__init__ "/<test>" ∅ "test" None = Some r
       ∧ Route._match r "/foo" = Some {[ "test" := VStr "foo" ]}
       ∧ ((Route.handle r "/foo" = Raise AttributeError ↔ resolve r = None)
          ∧ (∀ f, resolve r = Some f →
                  Route.handle r "/foo"
                  = Ok (partial.mk f (Some {[ "test" := VStr "foo" ]})))).
Proof.
  eexists. split; [vm_compute; reflexivity|]. split; [vm_compute; reflexivity|].
  apply handle_resolves_or_raises. vm_compute; reflexivity.
Defined.

(** C10. A route built without a [methods] argument allows exactly [GET]
    and [POST], and so handles no route under any other method. *)
Theorem default_methods_are_get_and_post (url : string)
    (instance : gmap string Attr) (method_str : string) (r : Route.t) :
  Route.__init__ url instance method_str None = Some r →
  Route._methods r = ["GET"; "POST"]
  ∧ (∀ method, method ∈ Route._methods r ↔ method = "GET" ∨ method = "POST")
  ∧ (∀ route method, method ≠ "GET" → method ≠ "POST" →
       Route.handles_route r route method = false).
Proof.
  unfold Route.__init__. destruct (Route._compile_regex url); [|done].
  intros [= <-]. simpl. split; [done|].
  assert (∀ method : string, method ∈ ALL_METHODS ↔ method = "GET" ∨ method = "POST") as H.
  { intros method. unfold ALL_METHODS. rewrite !elem_of_cons, elem_of_nil. tauto. }
  split; [done|]. intros route method H1 H2.
  unfold Route.handles_route. simpl.
  rewrite (bool_decide_eq_false_2 (method ∈ ALL_METHODS)); [apply andb_false_r|].
  rewrite H. tauto.
Qed.

Lemma default_methods_are_get_and_post_witness :
  ∃ r, Route.__init__ "/test" ∅ "index" None = Some r
       ∧ (Route._methods r = ["GET"; "POST"]
          ∧ (∀ method, method ∈ Route._methods r ↔ method = "GET" ∨ method = "POST")
          ∧ (∀ route method, method ≠ "GET" → method ≠ "POST" →
               Route.handles_route r route method = false)).
Proof.
  eexists. split; [vm_compute; reflexivity|].
  apply (default_methods_are_get_and_post "/test" ∅ "index"). vm_compute; reflexivity.
Defined.

(** ** The dispatcher and [NotFound] *)

(** C4, as claimed, fails: a router matches the request and the handler
    returns no mapping, and the dispatcher raises [NotFound]. *)
Lemma matched_handler_without_mapping_is_not_found :
  ∃ r, Route.__init__ "/" {[ "index" := AttrMethod returns_none ]} "index" None = Some r
       ∧ Route.handles_route r "/" "GET" = true
       ∧ AppContainer.wsgi_app (AppContainer.__init__ (Router.mk [r]) None None)
           (Request.mk "/" "GET" ∅ ∅ ∅)
         = Raise NotFound.
Proof. eexists. repeat split; vm_compute; reflexivity. Qed.

Lemma dispatch_not_found (app : AppContainer.t) (request : Request.t)
    (routes : list Router.t) :
  AppContainer.dispatch app routes request = Raise NotFound
  ↔ Forall (declines app request) routes.
Proof.
  induction routes as [|router rest IH]; simpl.
  - split; [constructor|done].
  - rewrite Forall_cons, <- IH. unfold declines at 1.
    rewrite router_match_first.
    destruct (list_find _ (Router.endpoints router)) as [[i e]|]; simpl.
    + destruct (Route.handle e (Request.path request)) as [m|exn] eqn:Hh; simpl.
      * destruct (partial.call m _) as [[vm|]|exn] eqn:Hc; simpl.
        -- destruct (AppContainer.apply_consumer_mutations app vm _).
           split; [done|]. intros [(m' & [= <-] & Hm') _]. congruence.
        -- split; [|tauto]. intros H. split; [|done]. by exists m.
        -- split; [intros [= ->]|].
           ++ exfalso. clear IH. unfold partial.call, Function.call in Hc.
              repeat case_match; congruence.
           ++ intros [(m' & [= <-] & Hm') _]. congruence.
      * split; [intros [= ->]|].
        -- exfalso. unfold Route.handle, getattr, mbind, Outcome_bind in Hh.
           repeat case_match; congruence.
        -- intros [(m' & ? & _) _]. done.
    + tauto.
Qed.

(** C4, amended. The dispatcher raises [NotFound] exactly when every
    configured router declines the request: none of its routes handles the
    path and method, or the handler of the first that does returns no
    mapping. *)
Theorem not_found_iff_every_router_declines (app : AppContainer.t)
    (request : Request.t) :
  AppContainer.wsgi_app app request = Raise NotFound
  ↔ Forall (declines app request) (AppContainer._routes app).
Proof. apply dispatch_not_found. Qed.

(** ** The parameter binder *)

Lemma request_lookup_table_from (providers : list ArgProvider.t)
    (acc : gmap string ArgProvider.t) (prefix : string) :
  foldl (fun table provider => <[ArgProvider.get_prefix provider := provider]> table)
    acc providers !! prefix
  = match registered providers prefix with
    | Some p => Some p
    | None => acc !! prefix
    end.
Proof.
  unfold registered. revert acc.
  induction providers as [|p ps IH]; intros acc; [done|].
  cbn [foldl]. rewrite IH, filter_cons. case_decide as Hp.
  - rewrite last_cons. destruct (last _); [done|].
    by rewrite <- Hp, lookup_insert_eq.
  - destruct (last _); [done|]. by rewrite lookup_insert_ne.
Qed.

Lemma request_lookup_table_spec (providers : list ArgProvider.t) (prefix : string) :
  AppContainer.request_lookup_table providers !! prefix = registered providers prefix.
Proof.
  unfold AppContainer.request_lookup_table.
  rewrite request_lookup_table_from. by destruct (registered _ _).
Qed.

Lemma extract_one_spec (providers : list ArgProvider.t) (request : Request.t)
    (acc : gmap string Value) (param : string) :
  AppContainer.extract_one (AppContainer.request_lookup_table providers) request acc param
  = match lookup_param providers request param with
    | Some v => <[param := v]> acc
    | None => acc
    end.
Proof.
  unfold AppContainer.extract_one, lookup_param.
  destruct (split2 param) as [[k v]|]; [|done].
  rewrite request_lookup_table_spec. by destruct (registered providers k).
Qed.

Lemma extract_fold_lookup (providers : list ArgProvider.t) (request : Request.t)
    (params : list string) (acc : gmap string Value) (param : string) :
  foldl (AppContainer.extract_one (AppContainer.request_lookup_table providers) request)
    acc params !! param
  = if decide (param ∈ params)
    then match lookup_param providers request param with
         | Some v => Some v
         | None => acc !! param
         end
    else acc !! param.
Proof.
  revert acc. induction params as [|p ps IH]; intros acc.
  - cbn [foldl]. rewrite decide_False; [done|]. apply not_elem_of_nil.
  - cbn [foldl]. rewrite IH, extract_one_spec.
    destruct (decide (param = p)) as [->|Hne].
    + rewrite (decide_True (P := p ∈ p :: ps)) by left.
      destruct (lookup_param providers request p) as [v|] eqn:Hl.
      * case_decide; [done|]. by rewrite lookup_insert_eq.
      * by case_decide.
    + destruct (decide (param ∈ ps)) as [Hin|Hin].
      * rewrite decide_True by (by right).
        destruct (lookup_param providers request param); [done|].
        destruct (lookup_param providers request p); [|done].
        by rewrite lookup_insert_ne.
      * rewrite decide_False by (rewrite elem_of_cons; tauto).
        destruct (lookup_param providers request p); [|done].
        by rewrite lookup_insert_ne.
Qed.

Lemma split2_chars (k c : string) : c ∈ chars k → split2 c = None.
Proof.
  induction k as [|a k IH]; simpl.
  - by intros ?%elem_of_nil.
  - intros [->|H]%elem_of_cons; [|by apply IH].
    simpl. by destruct a as [[] [] [] [] [] [] [] []].
Qed.

Lemma split2_self : split2 "self" = None.
Proof. reflexivity. Qed.

Lemma elem_of_remaining_args (m : partial.t) (param : string) :
  param ∈ AppContainer.remaining_args m
  ↔ (param ∈ Function.args (Function.argspec (partial.func m))
     ∨ ∃ k, Function.keywords (Function.argspec (partial.func m)) = Some k
            ∧ param ∈ chars k)
    ∧ url_captures m !! param = None ∧ param ≠ "self".
Proof.
  unfold AppContainer.remaining_args, url_captures.
  rewrite !elem_of_difference, elem_of_union, elem_of_list_to_set, elem_of_singleton.
  assert (param ∉ match partial.keywords m with Some kw => dom kw | None => ∅ end
          ↔ default ∅ (partial.keywords m) !! param = None) as ->.
  { destruct (partial.keywords m) as [kw|]; simpl.
    - by rewrite not_elem_of_dom.
    - rewrite lookup_empty. split; [done|]. intros _. apply not_elem_of_empty. }
  assert (param ∈ match Function.keywords (Function.argspec (partial.func m)) with
                  | Some k => list_to_set (chars k)
                  | None => (∅ : gset string)
                  end
          ↔ ∃ k, Function.keywords (Function.argspec (partial.func m)) = Some k
                 ∧ param ∈ chars k) as ->.
  { destruct (Function.keywords _) as [k|].
    - rewrite elem_of_list_to_set. split; [eauto|]. by intros (k' & [= <-] & ?).
    - split; [by intros ?%elem_of_empty|]. by intros (k' & ? & ?). }
  tauto.
Qed.


(** *** Invocation with the bound parameters *)

Lemma bind_formals_lookup (fs : list (string * option Value))
    (kwargs env : gmap string Value) :
  Function.bind_formals fs kwargs = Some env →
  ∀ a, (a ∈ fs.*1 → ∀ v, kwargs !! a = Some v → env !! a = Some v)
       ∧ (a ∉ fs.*1 → env !! a = None).
Proof.
  revert env. induction fs as [|[b d] fs IH]; intros env; simpl.
  - intros [= <-] a. split; [by intros ?%elem_of_nil|]. intros _. apply lookup_empty.
  - destruct (match kwargs !! b with Some v => Some v | None => d end) as [w|] eqn:Hw;
      [|done].
    destruct (Function.bind_formals fs kwargs) as [env'|]; [|done].
    intros [= <-] a. destruct (IH env' eq_refl a) as [IH1 IH2].
    destruct (decide (a = b)) as [->|Hne].
    + split.
      * intros _ v Hv. rewrite Hv in Hw. rewrite lookup_insert_eq. congruence.
      * intros Hn. exfalso. apply Hn. left.
    + rewrite lookup_insert_ne by done. split.
      * intros [?|Hin]%elem_of_cons; [done|]. by apply IH1.
      * intros Hn. apply IH2. intros Hin. apply Hn. by right.
Qed.

(** A call that goes through enters the body with every keyword argument
    bound to the value given for it. *)
Lemma call_enters_with_keywords (f : Function.t) (kwargs : gmap string Value)
    (res : option (gmap string Value)) :
  Function.call f kwargs = Ok res →
  ∃ env, res = Function.body f env
         ∧ ∀ a v, kwargs !! a = Some v → env !! a = Some v.
Proof.
  unfold Function.call.
  destruct (_ && _); [done|]. destruct (_ && _); [done|].
  destruct (Function.bind_formals _ kwargs) as [env|] eqn:Hb; [|done].
  intros [= <-]. eexists. split; [done|]. intros a v Hv.
  destruct (bind_formals_lookup _ _ _ Hb a) as [H1 H2].
  apply lookup_union_Some_raw.
  destruct (decide (a ∈ (Function.formals (Function.argspec f)).*1)) as [Hin|Hin].
  - left. by apply H1.
  - right. split; [by apply H2|]. by apply map_lookup_filter_Some.
Qed.

(** *** Absent values *)




(** ** Response mutation *)

Lemma consumer_map_from (consumers : list ResponseConsumer.t)
    (acc : gmap string ResponseConsumer.t) (prefix : string) :
  foldl (fun table consumer => <[ResponseConsumer.get_prefix consumer := consumer]> table)
    acc consumers !! prefix
  = match consumer_for consumers prefix with
    | Some c => Some c
    | None => acc !! prefix
    end.
Proof.
  unfold consumer_for. revert acc.
  induction consumers as [|c cs IH]; intros acc; [done|].
  cbn [foldl]. rewrite IH, filter_cons. case_decide as Hc.
  - rewrite last_cons. destruct (last _); [done|].
    by rewrite <- Hc, lookup_insert_eq.
  - destruct (last _); [done|]. by rewrite lookup_insert_ne.
Qed.

Lemma consumer_map_spec (consumers : list ResponseConsumer.t) (prefix : string) :
  AppContainer.consumer_map consumers !! prefix = consumer_for consumers prefix.
Proof.
  unfold AppContainer.consumer_map.
  rewrite consumer_map_from. by destruct (consumer_for _ _).
Qed.

Lemma mutate_one_spec (consumers : list ResponseConsumer.t)
    (st : gmap string Value * Response.t) (item : string * Value) :
  AppContainer.mutate_one (AppContainer.consumer_map consumers) st item
  = match directive consumers item.1 with
    | Some _ => (delete item.1 st.1, apply_item consumers st.2 item)
    | None => st
    end.
Proof.
  destruct item as [key value]. unfold AppContainer.mutate_one, apply_item, directive.
  simpl. destruct (split2 key) as [[cmd param]|]; [|done].
  rewrite consumer_map_spec. by destruct (consumer_for consumers cmd).
Qed.

Lemma mutate_fold_response (consumers : list ResponseConsumer.t)
    (items : list (string * Value)) (st : gmap string Value * Response.t) :
  (foldl (AppContainer.mutate_one (AppContainer.consumer_map consumers)) st items).2
  = foldl (apply_item consumers) st.2 items.
Proof.
  revert st. induction items as [|item items IH]; intros st; [done|].
  cbn [foldl]. rewrite IH, mutate_one_spec. f_equal.
  unfold apply_item. by destruct (directive consumers item.1) as [[c p]|].
Qed.

Lemma mutate_fold_lookup (consumers : list ResponseConsumer.t)
    (items : list (string * Value)) (st : gmap string Value * Response.t)
    (key : string) :
  (foldl (AppContainer.mutate_one (AppContainer.consumer_map consumers)) st items).1 !! key
  = if decide (key ∈ items.*1 ∧ is_Some (directive consumers key))
    then None else st.1 !! key.
Proof.
  revert st. induction items as [|item items IH]; intros st.
  - cbn [foldl]. rewrite decide_False; [done|]. intros [?%elem_of_nil _]. done.
  - cbn [foldl]. rewrite IH, mutate_one_spec.
    destruct (decide (key ∈ items.*1 ∧ is_Some (directive consumers key)))
      as [[Hin Hd]|Hn];
      destruct (decide (key ∈ (item :: items).*1 ∧ is_Some (directive consumers key)))
      as [[Hin' Hd']|Hn']; try done.
    + exfalso. apply Hn'. split; [|done]. rewrite fmap_cons. by right.
    + rewrite fmap_cons, elem_of_cons in Hin'. destruct Hin' as [->|Hin']; [|tauto].
      destruct Hd' as [d ->]. simpl. by rewrite lookup_delete_eq.
    + destruct (directive consumers item.1) as [d|] eqn:Hd; [|done]. simpl.
      rewrite lookup_delete_ne; [done|]. intros <-. apply Hn'.
      split; [|by eexists]. rewrite fmap_cons. left.
Qed.


(** The example of the specification: the cookie directive leaves the
    mapping, the plain field stays. *)
Lemma mutation_example :
  let app := AppContainer.__init__ (Router.mk []) None None in
  let result := AppContainer.apply_consumer_mutations app
                  (<["cookie__token" := VStr "abc"]> {[ "url" := VStr "http://x" ]})
                  (Response.__init__ "application/json") in
  result.1 = {[ "url" := VStr "http://x" ]}
  ∧ Response.cookie_ops result.2 = [SetCookie "pisces_cookie" (VStr "abc")].
Proof. split; vm_compute; reflexivity. Qed.

(** ** Templates of literal text and placeholders *)

(** *** From the template to the pattern text *)

Lemma name_char_facts (c : ascii) :
  is_name_char c = true →
  Ascii.eqb c ">"%char = false ∧ Ascii.eqb c newline = false.
Proof. destruct c as [[] [] [] [] [] [] [] []]; vm_compute; intuition congruence. Qed.

Lemma name_start_char (c : ascii) : is_name_start c = true → is_name_char c = true.
Proof. destruct c as [[] [] [] [] [] [] [] []]; vm_compute; congruence. Qed.

Lemma isname_chars (n : string) : isname n = true → str_forall is_name_char n = true.
Proof.
  destruct n as [|c n]; [done|]. simpl.
  intros [H1 H2]%andb_true_iff. by rewrite (name_start_char c H1), H2.
Qed.

Lemma sub_angle_text (s rest : string) :
  plain s = true →
  re.sub_angle None (s +:+ rest) = s +:+ re.sub_angle None rest.
Proof.
  induction s as [|c s IH]; [done|]. simpl.
  intros [Hc Hs]%andb_true_iff. rewrite !app_cons. simpl.
  unfold plain_char in Hc. apply andb_true_iff in Hc as [_ Hc].
  apply negb_true_iff in Hc. rewrite Hc. by rewrite (IH Hs).
Qed.

Lemma sub_angle_name (n acc rest : string) :
  str_forall is_name_char n = true →
  re.sub_angle (Some acc) (n +:+ String ">" rest)
  = "(?P<" +:+ (acc +:+ n) +:+ ">.*)" +:+ re.sub_angle None rest.
Proof.
  revert acc. induction n as [|c n IH]; intros acc.
  - intros _. rewrite app_empty_l, app_empty_r. reflexivity.
  - simpl. intros [Hc Hn]%andb_true_iff. rewrite app_cons. simpl.
    destruct (name_char_facts c Hc) as [-> ->].
    rewrite (IH _ Hn). by rewrite (app_assoc_str acc (String c "") n).
Qed.

Lemma sub_angle_template (segs : list segment) :
  forallb segment_ok segs = true →
  re.sub_angle None (template segs) = body_text segs.
Proof.
  induction segs as [|[s|n] segs IH]; [done|..]; simpl;
    intros [Hseg Hsegs]%andb_true_iff.
  - by rewrite (sub_angle_text _ _ Hseg), (IH Hsegs).
  - str_norm. simpl.
    rewrite (sub_angle_name n "" _ (isname_chars n Hseg)).
    rewrite (IH Hsegs). by str_norm.
Qed.

(** *** From the pattern text to the program *)

Lemma steps_app (st : re.pstate) (s t : string) :
  re.steps st (s +:+ t)
  = match re.steps st s with
    | Some st' => re.steps st' t
    | None => None
    end.
Proof.
  revert st. induction s as [|c s IH]; intros st; [done|].
  rewrite app_cons. simpl. destruct (re.step st c); [apply IH|done].
Qed.

Lemma step_plain (c : ascii) (o : list re.op) (q : bool) :
  plain_char c = true →
  re.step (re.mk_pstate o re.Normal q) c
  = Some (re.mk_pstate (re.Match (re.Lit c) re.One :: o) re.Normal true).
Proof. destruct c as [[] [] [] [] [] [] [] []]; vm_compute; congruence. Qed.

Lemma steps_text (s : string) (o : list re.op) (q : bool) :
  plain s = true →
  ∃ q', re.steps (re.mk_pstate o re.Normal q) s
        = Some (re.mk_pstate (rev (lits s) ++ o) re.Normal q').
Proof.
  revert o q. induction s as [|c s IH]; intros o q; simpl.
  - intros _. by exists q.
  - intros [Hc Hs]%andb_true_iff. rewrite (step_plain c o q Hc).
    destruct (IH (re.Match (re.Lit c) re.One :: o) true Hs) as [q' ->].
    exists q'. by rewrite <- app_assoc.
Qed.

Lemma steps_name (n acc : string) (o : list re.op) :
  str_forall is_name_char n = true →
  re.steps (re.mk_pstate o (re.GroupName acc) false) n
  = Some (re.mk_pstate o (re.GroupName (acc +:+ n)) false).
Proof.
  revert acc. induction n as [|c n IH]; intros acc; simpl.
  - intros _. by rewrite app_empty_r.
  - intros [Hc Hn]%andb_true_iff. unfold re.step. simpl.
    destruct (name_char_facts c Hc) as [-> _].
    rewrite (IH _ Hn). by rewrite (app_assoc_str acc (String c "") n).
Qed.

Lemma steps_group_open (o : list re.op) (q : bool) (t : string) :
  re.steps (re.mk_pstate o re.Normal q) ("(?P<" +:+ t)
  = re.steps (re.mk_pstate o (re.GroupName "") false) t.
Proof. reflexivity. Qed.

Lemma steps_group_close (o : list re.op) (n : string) :
  isname n = true →
  re.steps (re.mk_pstate o (re.GroupName n) false) ">.*)"
  = Some (re.mk_pstate
            (re.Close :: re.Match re.AnyChar re.Star :: re.Open (Some n) :: o)
            re.Normal false).
Proof.
  intros Hn. cbn [re.steps]. unfold re.step at 1. cbn [re.pmode Ascii.eqb Bool.eqb].
  rewrite Hn. reflexivity.
Qed.

Lemma steps_group (n : string) (o : list re.op) (q : bool) :
  isname n = true →
  re.steps (re.mk_pstate o re.Normal q) ("(?P<" +:+ n +:+ ">.*)")
  = Some (re.mk_pstate
            (re.Close :: re.Match re.AnyChar re.Star :: re.Open (Some n) :: o)
            re.Normal false).
Proof.
  intros Hn. rewrite steps_group_open, steps_app.
  rewrite (steps_name n "" o (isname_chars n Hn)), app_empty_l.
  by apply steps_group_close.
Qed.

Lemma steps_body (segs : list segment) (o : list re.op) (q : bool) :
  forallb segment_ok segs = true →
  ∃ q', re.steps (re.mk_pstate o re.Normal q) (body_text segs)
        = Some (re.mk_pstate (rev (body_ops segs) ++ o) re.Normal q').
Proof.
  revert o q. induction segs as [|seg segs IH]; intros o q;
    cbn [body_text body_ops forallb].
  - intros _. by exists q.
  - intros [Hseg Hsegs]%andb_true_iff. rewrite steps_app.
    destruct seg as [s|n]; cbn [pattern_text seg_ops segment_ok] in *.
    + destruct (steps_text s o q Hseg) as [q1 ->].
      destruct (IH (rev (lits s) ++ o) q1 Hsegs) as [q2 ->].
      exists q2. by rewrite rev_app_distr, <- app_assoc.
    + rewrite (steps_group n o q Hseg).
      destruct (IH (re.Close :: re.Match re.AnyChar re.Star :: re.Open (Some n) :: o)
                  false Hsegs) as [q2 ->].
      exists q2. rewrite rev_app_distr. simpl. by rewrite <- !app_assoc.
Qed.

Lemma balanced_lits (s : string) (d : nat) (k : list re.op) :
  re.balanced d (lits s ++ k) = re.balanced d k.
Proof. induction s as [|c s IH]; [done|]. simpl. apply IH. Qed.

Lemma balanced_body (segs : list segment) (d : nat) (k : list re.op) :
  re.balanced d (body_ops segs ++ k) = re.balanced d k.
Proof.
  induction segs as [|[s|n] segs IH]; [done|..]; simpl.
  - by rewrite <- app_assoc, balanced_lits.
  - apply IH.
Qed.

Lemma group_names_lits (s : string) (k : list re.op) :
  re.group_names (lits s ++ k) = re.group_names k.
Proof. induction s as [|c s IH]; [done|]. simpl. apply IH. Qed.

Lemma group_names_body (segs : list segment) (k : list re.op) :
  re.group_names (body_ops segs ++ k) = placeholders segs ++ re.group_names k.
Proof.
  induction segs as [|[s|n] segs IH]; [done|..]; simpl.
  - by rewrite <- app_assoc, group_names_lits.
  - by rewrite IH.
Qed.

(** A well-formed template compiles, to the program of its segments
    between the two anchors. *)
Lemma compile_template (segs : list segment) :
  well_formed segs →
  Route._compile_regex (template segs)
  = Some (re.mk_Pattern ("^" +:+ body_text segs +:+ "$")
            (re.Bol :: body_ops segs ++ [re.Eol])).
Proof.
  intros [Hok Hnd]. unfold Route._compile_regex, re.compile.
  rewrite (sub_angle_template segs Hok). rewrite app_cons, app_empty_l.
  cbn [re.steps]. change (re.step re.initial "^"%char)
    with (Some (re.mk_pstate [re.Bol] re.Normal false)).
  cbv iota beta. rewrite steps_app.
  destruct (steps_body segs [re.Bol] false Hok) as [q ->].
  cbn [re.steps]. unfold re.step at 1. simpl.
  rewrite rev_app_distr, rev_involutive. simpl.
  rewrite balanced_body. simpl.
  rewrite group_names_body. simpl. rewrite app_nil_r.
  by rewrite bool_decide_eq_true_2.
Qed.

(** *** Running the program of a template *)

Lemma str_drop_add (a b : nat) (s : string) :
  str_drop (a + b) s = str_drop b (str_drop a s).
Proof.
  revert s. induction a as [|a IH]; intros s; [done|].
  destruct s as [|c s]; simpl; [by destruct b|apply IH].
Qed.

Lemma str_take_drop (j : nat) (s : string) : str_take j s +:+ str_drop j s = s.
Proof.
  revert s. induction j as [|j IH]; intros s; [done|].
  destruct s as [|c s]; [done|]. simpl. by rewrite app_cons, IH.
Qed.

Lemma str_take_length (j : nat) (s : string) :
  j ≤ String.length s → String.length (str_take j s) = j.
Proof.
  revert s. induction j as [|j IH]; intros s; [done|].
  destruct s as [|c s]; simpl; [lia|]. intros H. rewrite IH; lia.
Qed.

Lemma str_drop_app (t r : string) : str_drop (String.length t) (t +:+ r) = r.
Proof. induction t as [|c t IH]; [by destruct r|]. by rewrite app_cons. Qed.

Lemma str_take_app (t r : string) : str_take (String.length t) (t +:+ r) = t.
Proof.
  induction t as [|c t IH]; [by destruct r|]. rewrite app_cons. simpl. by rewrite IH.
Qed.

Lemma slice_take (pos j : nat) (s : string) :
  slice pos (pos + j) s = str_take j (str_drop pos s).
Proof. unfold slice. by replace (pos + j - pos) with j by lia. Qed.

Lemma no_newline_drop (j : nat) (s : string) :
  no_newline s = true → no_newline (str_drop j s) = true.
Proof.
  revert s. induction j as [|j IH]; intros s; [done|].
  destruct s as [|c s]; [done|]. simpl. intros [_ H]%andb_true_iff. by apply IH.
Qed.

Lemma span_any (s : string) :
  no_newline s = true → re.span re.AnyChar s = String.length s.
Proof.
  induction s as [|c s IH]; [done|]. simpl.
  intros [-> H]%andb_true_iff. by rewrite IH.
Qed.

Lemma at_end_no_newline (s : string) :
  no_newline s = true → re.at_end s = true → s = "".
Proof.
  destruct s as [|c [|c' s]]; [done|..]; simpl; [|done].
  intros [H _]%andb_true_iff H'. rewrite H' in H. done.
Qed.

Lemma backtrack_ext {A : Type} (f g : nat → option A) (lo n : nat) :
  (∀ j, f j = g j) → re.backtrack f lo n = re.backtrack g lo n.
Proof.
  intros H. induction n as [|n IH]; simpl; rewrite H; [done|].
  by rewrite IH.
Qed.

(** The count [backtrack] settles on is the largest that works. *)
Lemma backtrack_Some {A : Type} (f : nat → option A) (lo n : nat) (r : A) :
  re.backtrack f lo n = Some r →
  ∃ j, j ≤ n ∧ f (lo + j) = Some r ∧ ∀ j', j < j' ≤ n → f (lo + j') = None.
Proof.
  induction n as [|n IH]; simpl.
  - destruct (f (lo + 0)) as [r'|] eqn:Hf; [|done]. intros [= ->].
    exists 0. split; [lia|]. split; [done|]. intros j' ?. lia.
  - destruct (f (lo + S n)) as [r'|] eqn:Hf.
    + intros [= ->]. exists (S n). split; [lia|]. split; [done|]. intros j' ?. lia.
    + intros (j & Hj & Hfj & Hmax)%IH. exists j. split; [lia|]. split; [done|].
      intros j' Hj'. destruct (decide (j' = S n)) as [->|]; [done|].
      apply Hmax. lia.
Qed.

Lemma backtrack_is_Some {A : Type} (f : nat → option A) (lo n j : nat) :
  j ≤ n → is_Some (f (lo + j)) → is_Some (re.backtrack f lo n).
Proof.
  induction n as [|n IH]; simpl; intros Hj Hf.
  - replace j with 0 in Hf by lia. by destruct (f (lo + 0)).
  - destruct (f (lo + S n)) eqn:Hn; [done|].
    apply IH; [|done]. destruct (decide (j = S n)) as [->|]; [|lia].
    rewrite Hn in Hf. by destruct Hf.
Qed.

Lemma exec_lit (s0 : string) (c : ascii) (k : list re.op) (pos : nat)
    (opens : list (option string * nat)) (caps : gmap string string) :
  re.exec s0 (re.Match (re.Lit c) re.One :: k) pos opens caps
  = match str_drop pos s0 with
    | String c' _ =>
        if Ascii.eqb c c' then re.exec s0 k (pos + 1) opens caps else None
    | EmptyString => None
    end.
Proof.
  cbn [re.exec]. destruct (str_drop pos s0) as [|c' r]; [done|].
  cbn [re.span re.atom_matches]. destruct (Ascii.eqb c c'); [|done].
  cbn [re.qcap re.qmin Nat.min Nat.ltb Nat.leb Nat.sub re.backtrack Nat.add].
  by destruct (re.exec s0 k (pos + 1) opens caps).
Qed.

Lemma exec_lits_match (s0 t rest : string) (k : list re.op) (pos : nat)
    (opens : list (option string * nat)) (caps : gmap string string) :
  str_drop pos s0 = t +:+ rest →
  re.exec s0 (lits t ++ k) pos opens caps
  = re.exec s0 k (pos + String.length t) opens caps.
Proof.
  revert pos. induction t as [|c t IH]; intros pos Hd.
  - simpl. by rewrite Nat.add_0_r.
  - cbn [lits app]. rewrite exec_lit, Hd, app_cons, Ascii.eqb_refl.
    rewrite IH.
    + simpl. by replace (pos + 1 + String.length t) with (pos + S (String.length t)) by lia.
    + rewrite str_drop_add, Hd, app_cons. done.
Qed.

Lemma exec_lits_Some (s0 t : string) (k : list re.op) (pos : nat)
    (opens : list (option string * nat)) (caps r : gmap string string) :
  re.exec s0 (lits t ++ k) pos opens caps = Some r →
  ∃ rest, str_drop pos s0 = t +:+ rest.
Proof.
  revert pos. induction t as [|c t IH]; intros pos.
  - intros _. by exists (str_drop pos s0).
  - cbn [lits app]. rewrite exec_lit.
    destruct (str_drop pos s0) as [|c' s'] eqn:Hd; [done|].
    destruct (Ascii.eqb c c') eqn:Hc; [|done]. apply Ascii.eqb_eq in Hc as <-.
    intros [rest Hrest]%IH. exists rest.
    rewrite str_drop_add, Hd in Hrest. simpl in Hrest. by rewrite app_cons, Hrest.
Qed.

Lemma exec_hole (s0 n : string) (k : list re.op) (pos : nat)
    (opens : list (option string * nat)) (caps : gmap string string) :
  re.exec s0 (re.Open (Some n) :: re.Match re.AnyChar re.Star :: re.Close :: k)
    pos opens caps
  = re.backtrack
      (fun j => re.exec s0 k (pos + j) opens
                  (<[n := str_take j (str_drop pos s0)]> caps))
      0 (re.span re.AnyChar (str_drop pos s0)).
Proof.
  cbn [re.exec re.qcap re.qmin]. rewrite Nat.sub_0_r.
  assert ((re.span re.AnyChar (str_drop pos s0) <? 0) = false) as ->
    by (apply Nat.ltb_ge; lia).
  apply backtrack_ext. intros j. by rewrite slice_take.
Qed.

(** Every choice of values that spells the rest of the path is accepted. *)
Lemma exec_complete (s0 : string) (segs : list segment) :
  no_newline s0 = true →
  ∀ pos caps vals,
    length vals = length (placeholders segs) →
    str_drop pos s0 = substitute segs vals →
    is_Some (re.exec s0 (body_ops segs ++ [re.Eol]) pos [] caps).
Proof.
  intros Hnl. induction segs as [|[t|n] segs IH]; intros pos caps vals Hlen Hd.
  - cbn [body_ops app re.exec]. cbn [substitute] in Hd. rewrite Hd. by eexists.
  - cbn [body_ops seg_ops]. cbn [substitute placeholders] in *.
    rewrite <- app_assoc, (exec_lits_match _ _ _ _ _ _ _ Hd).
    apply (IH _ _ vals Hlen).
    by rewrite str_drop_add, Hd, str_drop_app.
  - cbn [substitute placeholders] in *. destruct vals as [|v vs]; [done|].
    cbn [body_ops seg_ops app]. rewrite exec_hole.
    apply (backtrack_is_Some _ 0 _ (String.length v)).
    + rewrite (span_any _ (no_newline_drop pos s0 Hnl)), Hd, app_length_str. lia.
    + simpl in Hlen. cbn [Nat.add]. apply (IH _ _ vs); [lia|].
      by rewrite str_drop_add, Hd, str_drop_app.
Qed.

(** A run that succeeds spells the rest of the path with the values it
    captured, and no other spelling is greedier. *)
Lemma exec_sound (s0 : string) (segs : list segment) :
  no_newline s0 = true →
  ∀ pos caps r,
    re.exec s0 (body_ops segs ++ [re.Eol]) pos [] caps = Some r →
    ∃ vals,
      length vals = length (placeholders segs)
      ∧ str_drop pos s0 = substitute segs vals
      ∧ r = record caps (placeholders segs) vals
      ∧ ∀ vals', length vals' = length (placeholders segs) →
                 str_drop pos s0 = substitute segs vals' →
                 greedy_ge vals vals'.
Proof.
  intros Hnl. induction segs as [|[t|n] segs IH]; intros pos caps r.
  - cbn [body_ops app re.exec].
    destruct (re.at_end (str_drop pos s0)) eqn:He; [|done]. intros [= <-].
    exists []. split; [done|]. split.
    { apply at_end_no_newline; [by apply no_newline_drop|done]. }
    split; [done|]. by intros [|??].
  - cbn [body_ops seg_ops substitute placeholders]. rewrite <- app_assoc.
    intros Hex. destruct (exec_lits_Some _ _ _ _ _ _ _ Hex) as [rest Hd].
    rewrite (exec_lits_match _ _ _ _ _ _ _ Hd) in Hex.
    apply IH in Hex as (vals & Hlen & Hsub & Hr & Hg).
    assert (str_drop (pos + String.length t) s0 = rest) as Hrest
      by (by rewrite str_drop_add, Hd, str_drop_app).
    exists vals. split; [done|]. split; [by rewrite Hd, <- Hsub, Hrest|].
    split; [done|]. intros vals' Hlen' Hd'. apply Hg; [done|].
    rewrite Hd in Hd'. apply (inj (String.app t)) in Hd'. by rewrite Hrest.
  - cbn [body_ops seg_ops substitute placeholders app]. rewrite exec_hole.
    rewrite (span_any _ (no_newline_drop pos s0 Hnl)).
    intros (j & Hj & Hex & Hmax)%backtrack_Some. simpl in Hex.
    apply IH in Hex as (vals & Hlen & Hsub & Hr & Hg).
    set (rest := str_drop pos s0) in *.
    exists (str_take j rest :: vals). split; [simpl; lia|].
    split; [|split].
    + rewrite <- Hsub, str_drop_add. fold rest. by rewrite str_take_drop.
    + done.
    + intros [|v' vs'] Hlen' Hd'; [done|]. simpl in Hlen'.
      assert (String.length rest = String.length v' + String.length (substitute segs vs'))
        as Hl by (by rewrite Hd', app_length_str).
      assert (str_drop (pos + String.length v') s0 = substitute segs vs') as Hrest'.
      { rewrite str_drop_add. fold rest. by rewrite Hd', str_drop_app. }
      cbn [greedy_ge]. rewrite (str_take_length j rest Hj).
      destruct (decide (j < String.length v')) as [Hlt|Hge].
      * exfalso. assert (String.length v' ≤ String.length rest) as Hle by lia.
        specialize (Hmax (String.length v') (conj Hlt Hle)). simpl in Hmax.
        destruct (exec_complete s0 segs Hnl (pos + String.length v')
                    (<[n := str_take (String.length v') rest]> caps) vs') as [r' Hr'];
          [lia|done|]. congruence.
      * destruct (decide (String.length v' = j)) as [Heq|Hne]; [|left; lia].
        right. split; [done|]. apply Hg; [lia|]. by rewrite <- Heq.
Qed.

(** *** The captures as the route reports them *)

Lemma record_cons (caps : gmap string string) (n v : string) (ns vs : list string) :
  record caps (n :: ns) (v :: vs) = record (<[n := v]> caps) ns vs.
Proof. reflexivity. Qed.

Lemma record_notin (names vals : list string) (caps : gmap string string) (n : string) :
  n ∉ names → record caps names vals !! n = caps !! n.
Proof.
  revert vals caps. induction names as [|m ns IH]; intros vals caps Hn; [done|].
  destruct vals as [|v vs]; [done|]. rewrite record_cons, IH.
  - apply lookup_insert_ne. intros ->. apply Hn. left.
  - intros Hin. apply Hn. by right.
Qed.

Lemma groupdict_record (names vals : list string) (caps : gmap string string) :
  NoDup names → length vals = length names →
  map (fun n => (n, dict_get (record caps names vals) n)) names
  = zip names (VStr <$> vals).
Proof.
  revert vals caps. induction names as [|n ns IH]; intros vals caps Hnd Hlen; [done|].
  destruct vals as [|v vs]; [done|]. apply NoDup_cons in Hnd as [Hn Hnd].
  rewrite record_cons. cbn [map fmap list_fmap zip zip_with]. f_equal.
  - unfold dict_get. by rewrite (record_notin ns vs _ n Hn), lookup_insert_eq.
  - apply IH; [done|]. simpl in Hlen. lia.
Qed.

Lemma template_route (segs : list segment) (instance : gmap string Attr)
    (method_str : string) (methods : option (list string)) :
  well_formed segs →
  ∃ r, Route.__init__ (template segs) instance method_str methods = Some r
       ∧ re.prog (Route._re r) = re.Bol :: body_ops segs ++ [re.Eol].
Proof.
  intros Hwf. unfold Route.__init__. rewrite (compile_template segs Hwf).
  eexists. split; [done|]. done.
Qed.

Lemma template_match (r : Route.t) (segs : list segment) (path : string) :
  re.prog (Route._re r) = re.Bol :: body_ops segs ++ [re.Eol] →
  Route._match r path
  = match re.exec path (body_ops segs ++ [re.Eol]) 0 [] ∅ with
    | Some m =>
        Some (list_to_map (map (fun n => (n, dict_get m n)) (placeholders segs)))
    | None => None
    end.
Proof.
  intros Hp. unfold Route._match, re.match_, re.groupdict. rewrite Hp.
  cbn [re.exec Nat.eqb].
  replace (re.group_names (re.Bol :: body_ops segs ++ [re.Eol]))
    with (placeholders segs); [done|].
  cbn [re.group_names]. rewrite group_names_body. simpl. by rewrite app_nil_r.
Qed.

(** C3, as claimed, fails: the placeholder of the template [/<test>]
    matches no character at all on the path [/]. *)
Lemma placeholder_matches_empty_text :
  ∃ r, Route.__init__ "/<test>" ∅ "index" None = Some r
       ∧ Route._match r "/" = Some {[ "test" := VStr "" ]}.
Proof. eexists. split; vm_compute; reflexivity. Qed.

(** The example of the specification. *)
Lemma bill_and_ted :
  ∃ r, Route.__init__ "/<one>/and/<two>" ∅ "index" None = Some r
       ∧ Route._match r "/bill/and/ted"
         = Some (<["one" := VStr "bill"]> {[ "two" := VStr "ted" ]}).
Proof. eexists. split; vm_compute; reflexivity. Qed.

(** C3, amended. A template made of literal text free of regular
    expression syntax and of placeholders with distinct identifier names
    compiles to a matcher whose named groups are exactly the placeholder
    names. On a path without newline, the matcher accepts every way of
    putting a value, empty or not, in each placeholder between the literal
    text; the captures it reports spell the path, and among all such
    spellings they are the greedy one: the first placeholder takes the most
    characters it can, then the second, and so on. *)
Theorem placeholders_capture_greedily (segs : list segment)
    (instance : gmap string Attr) (method_str : string)
    (methods : option (list string)) :
  well_formed segs →
  ∃ r, Route.__init__ (template segs) instance method_str methods = Some r
       ∧ re.group_names (re.prog (Route._re r)) = placeholders segs
       ∧ ∀ path, no_newline path = true →
           (∀ vals, length vals = length (placeholders segs) →
                    path = substitute segs vals →
                    is_Some (Route._match r path))
           ∧ (∀ caps, Route._match r path = Some caps →
                ∃ vals,
                  length vals = length (placeholders segs)
                  ∧ path = substitute segs vals
                  ∧ caps = list_to_map (zip (placeholders segs) (VStr <$> vals))
                  ∧ ∀ vals', length vals' = length (placeholders segs) →
                             path = substitute segs vals' →
                             greedy_ge vals vals').
Proof.
  intros Hwf. destruct (template_route segs instance method_str methods Hwf)
    as (r & Hr & Hp).
  exists r. split; [done|]. split.
  { rewrite Hp. cbn [re.group_names]. rewrite group_names_body. simpl.
    by rewrite app_nil_r. }
  intros path Hnl. split.
  - intros vals Hlen Hsub. rewrite (template_match r segs path Hp).
    destruct (exec_complete path segs Hnl 0 ∅ vals Hlen Hsub) as [m ->]. by eexists.
  - intros caps. rewrite (template_match r segs path Hp).
    destruct (re.exec path (body_ops segs ++ [re.Eol]) 0 [] ∅) as [m|] eqn:Hex; [|done].
    intros [= <-]. apply (exec_sound path segs Hnl) in Hex as (vals & Hlen & Hsub & -> & Hg).
    exists vals. split; [done|]. split; [done|]. split; [|done].
    by rewrite (groupdict_record _ _ _ (proj2 Hwf) Hlen).
Qed.

Lemma placeholders_capture_greedily_witness :
  well_formed one_and_two
  ∧ ∃ r, Route.__init__ "/<one>/and/<two>" ∅ "index" None = Some r
       ∧ re.group_names (re.prog (Route._re r)) = ["one"; "two"]
       ∧ (∀ path, no_newline path = true →
           (∀ vals, length vals = length (placeholders one_and_two) →
                    path = substitute one_and_two vals →
                    is_Some (Route._match r path))
           ∧ (∀ caps, Route._match r path = Some caps →
                ∃ vals,
                  length vals = length (placeholders one_and_two)
                  ∧ path = substitute one_and_two vals
                  ∧ caps = list_to_map (zip (placeholders one_and_two) (VStr <$> vals))
                  ∧ ∀ vals', length vals' = length (placeholders one_and_two) →
                             path = substitute one_and_two vals' →
                             greedy_ge vals vals'))
       ∧ Route._match r "/bill/and/ted"
         = Some (<["one" := VStr "bill"]> {[ "two" := VStr "ted" ]}).
Proof.
  assert (well_formed one_and_two) as Hwf.
  { split; [reflexivity|]. apply (bool_decide_unpack _). vm_compute. exact I. }
  split; [exact Hwf|].
  destruct (placeholders_capture_greedily one_and_two ∅ "index" None Hwf)
    as (r & Hr & Hn & Hp).
  exists r. split; [exact Hr|]. split; [exact Hn|]. split; [exact Hp|].
  vm_compute in Hr. injection Hr as <-. vm_compute. reflexivity.
Defined.

(** ** Templates without placeholders *)

(** On paths without newline, a route whose template is plain literal
    text handles exactly that text, under the methods it allows. *)
Lemma exact_template_handles_itself (t : string) (instance : gmap string Attr)
    (method_str : string) (methods : option (list string)) :
  plain t = true →
  ∃ r, Route.__init__ t instance method_str methods = Some r
       ∧ ∀ path method, no_newline path = true →
           (Route.handles_route r path method = true
            ↔ path = t ∧ method ∈ Route._methods r).
Proof.
  intros Ht.
  assert (well_formed [Text t]) as Hwf.
  { split; [simpl; by rewrite Ht|constructor]. }
  destruct (template_route [Text t] instance method_str methods Hwf) as (r & Hr & Hp).
  cbn [template render] in Hr. rewrite app_empty_r in Hr.
  exists r. split; [done|]. intros path method Hnl.
  rewrite handles_route_spec, (template_match r [Text t] path Hp).
  assert (is_Some (re.exec path (body_ops [Text t] ++ [re.Eol]) 0 [] ∅) ↔ path = t) as Hm.
  { split.
    - intros [m Hm]. apply (exec_sound path [Text t] Hnl) in Hm as (vals & _ & Hsub & _).
      cbn [substitute str_drop] in Hsub. by rewrite app_empty_r in Hsub.
    - intros ->. apply (exec_complete t [Text t] Hnl 0 ∅ []); [done|].
      cbn [substitute str_drop]. by rewrite app_empty_r. }
  rewrite <- Hm. destruct (re.exec path _ 0 [] ∅); split; intros [H1 H2]; split;
    try done; by destruct H1.
Qed.

(** ** The test suite and the demo application *)

Lemma test_compile_regex__angle_syntax_captures_input :
  ∃ r, Route.__init__ "/<test>" ∅ "index" None = Some r
       ∧ Route._match r "/something_here" = Some {[ "test" := VStr "something_here" ]}.
Proof. eexists. split; vm_compute; reflexivity. Qed.

Lemma test_handles_route :
  ∃ r r', Route.__init__ "/test" ∅ "index" None = Some r
          ∧ Route.__init__ "/test" ∅ "index" (Some ["POST"]) = Some r'
          ∧ Route.handles_route r "/test" "GET" = true
          ∧ Route.handles_route r "/nottest" "GET" = false
          ∧ Route.handles_route r' "/test" "GET" = false.
Proof. do 2 eexists. repeat split; vm_compute; reflexivity. Qed.

Lemma test_match__returns_none_on_no_match :
  ∃ r, Route.__init__ "/<test>" ∅ "index" None = Some r
       ∧ Route._match r "nope" = None.
Proof. eexists. split; vm_compute; reflexivity. Qed.

Lemma test_match__shouldnt_pick_up_longer_url :
  ∃ r, Route.__init__ "/" ∅ "index" None = Some r
       ∧ Route.handles_route r "/NB2HI4B2F4XWO33PM5WGKLTDN5WQ====" "GET" = false.
Proof. eexists. split; vm_compute; reflexivity. Qed.

Lemma test_handle__attribute_error_on_nonexistant_method :
  ∃ r, Route.__init__ "/<test>" ∅ "test" None = Some r
       ∧ Route.handle r "/foo" = Raise AttributeError.
Proof. eexists. split; vm_compute; reflexivity. Qed.

Lemma test_extract_params :
  let app := AppContainer.__init__ (Router.mk []) None None in
  let extract := AppContainer._extract_params_from_request app in
  extract (test_func []) (Request.mk "/" "GET" ∅ ∅ ∅) = ∅
  ∧ extract (test_func ["self"]) (Request.mk "/" "GET" ∅ ∅ ∅) = ∅
  ∧ extract (test_func ["something"]) (Request.mk "/" "GET" ∅ ∅ ∅) = ∅
  ∧ extract (test_func ["something__here"]) (Request.mk "/" "GET" ∅ ∅ ∅) = ∅
  ∧ extract (test_func ["get__foo"]) (Request.mk "/" "GET" {[ "foo" := "bar" ]} ∅ ∅)
    = {[ "get__foo" := VStr "bar" ]}
  ∧ extract (test_func ["post__foo"]) (Request.mk "/" "POST" ∅ {[ "foo" := "bar" ]} ∅)
    = {[ "post__foo" := VStr "bar" ]}
  ∧ extract (test_func ["post__foo"]) (Request.mk "/" "GET" {[ "foo" := "bar" ]} ∅ ∅)
    = {[ "post__foo" := VNone ]}.
Proof. repeat split; vm_compute; reflexivity. Qed.

(** The demo's routes at [/]: a form post of a URL is answered with the
    one field the handler returns; a request no route handles is
    [NotFound]. *)
Lemma demo_end_to_end :
  ∃ r1 r2,
    Route.__init__ "/" demo_endpoint "index" (Some ["GET"]) = Some r1
    ∧ Route.__init__ "/" demo_endpoint "new_url" (Some ["POST"]) = Some r2
    ∧ let app := AppContainer.__init__ (Router.mk [r1; r2]) None None in
      AppContainer.wsgi_app app
        (Request.mk "/" "POST" ∅ {[ "url" := "http://example.com" ]} ∅)
      = Ok (Response.mk "application/json" []
              (JsonObject {[ "hash" := VStr "http://example.com" ]}))
      ∧ AppContainer.wsgi_app app (Request.mk "/" "GET" ∅ ∅ ∅)
        = Ok (Response.mk "application/json" []
                (JsonObject {[ "message" := VStr "WELCOME" ]}))
      ∧ AppContainer.wsgi_app app (Request.mk "/zzz" "DELETE" ∅ ∅ ∅) = Raise NotFound.
Proof. do 2 eexists. repeat split; vm_compute; reflexivity. Qed.

(** ** Further properties of routes and routers *)

(** [Router.match]: the endpoints before the first one that handles the
    route are passed over, that endpoint's [handle] is the answer, and the
    endpoints after it play no part. *)
Theorem router_first_match_wins (before after : list Route.t) (e : Route.t)
    (route method : string) :
  Forall (fun e' => Route.handles_route e' route method = false) before →
  Route.handles_route e route method = true →
  Router.match_ (Router.mk (before ++ e :: after)) route method
  = (p ← Route.handle e route; Ok (Some p)).
Proof.
  intros Hb He. unfold Router.match_. simpl.
  induction Hb as [|e' before He' Hb IH]; simpl.
  - by rewrite He.
  - by rewrite He'.
Qed.

Lemma router_first_match_wins_witness :
  ∃ r1 r2 r3,
    Route.__init__ "/" demo_endpoint "index" (Some ["POST"]) = Some r1
    ∧ Route.__init__ "/<x>" demo_endpoint "index" None = Some r2
    ∧ Route.__init__ "/<y>" demo_endpoint "new_url" None = Some r3
    ∧ Forall (fun e' => Route.handles_route e' "/a" "GET" = false) [r1]
    ∧ Route.handles_route r2 "/a" "GET" = true
    ∧ Router.match_ (Router.mk ([r1] ++ r2 :: [r3])) "/a" "GET"
      = (p ← Route.handle r2 "/a"; Ok (Some p)).
Proof.
  do 3 eexists. split; [vm_compute; reflexivity|].
  split; [vm_compute; reflexivity|]. split; [vm_compute; reflexivity|].
  assert (Forall (fun e' => Route.handles_route e' "/a" "GET" = false)
            [Route.mk "/" (re.mk_Pattern "^/$" [re.Bol; re.Match (re.Lit "/") re.One; re.Eol])
               demo_endpoint "index" ["POST"]]) as Hb.
  { constructor; [vm_compute; reflexivity|constructor]. }
  split; [exact Hb|].
  split; [vm_compute; reflexivity|].
  apply (router_first_match_wins _ _ _ "/a" "GET" Hb). vm_compute; reflexivity.
Defined.

Lemma handle_of_handled (e : Route.t) (route method : string) :
  Route.handles_route e route method = true →
  ∃ params, Route._match e route = Some params
    ∧ Route.handle e route
      = match resolve e with
        | Some f => Ok (partial.mk f (Some params))
        | None => Raise AttributeError
        end.
Proof.
  intros [[params Hm] _]%handles_route_spec. exists params. split; [done|].
  unfold Route.handle, resolve, getattr. rewrite Hm.
  by destruct (Route._instance e !! Route._callback e) as [[|f]|].
Qed.

(** [Router.match] raises nothing but [AttributeError], and raises it
    only for an endpoint that handles the route and whose callback does
    not resolve: the unpacking of a failed match is never reached. *)
Theorem router_match_raises_only_attribute_error (router : Router.t)
    (route method : string) (exn : Exception) :
  Router.match_ router route method = Raise exn →
  exn = AttributeError
  ∧ ∃ e, e ∈ Router.endpoints router
         ∧ Route.handles_route e route method = true
         ∧ resolve e = None.
Proof.
  rewrite router_match_first.
  destruct (list_find _ (Router.endpoints router)) as [[i e]|] eqn:Hf; [|done].
  apply list_find_Some in Hf as (Hi & He & _).
  destruct (handle_of_handled e route method He) as (params & _ & ->).
  destruct (resolve e) as [f|] eqn:Hr; [done|]. intros [= <-].
  split; [done|]. exists e. split; [|done]. by eapply list_elem_of_lookup_2.
Qed.

Lemma router_match_raises_only_attribute_error_witness :
  ∃ r, Route.__init__ "/<test>" ∅ "test" None = Some r
       ∧ Router.match_ (Router.mk [r]) "/foo" "GET" = Raise AttributeError
       ∧ (AttributeError = AttributeError
          ∧ ∃ e, e ∈ Router.endpoints (Router.mk [r])
                 ∧ Route.handles_route e "/foo" "GET" = true
                 ∧ resolve e = None).
Proof.
  eexists. split; [vm_compute; reflexivity|].
  split; [vm_compute; reflexivity|].
  apply (router_match_raises_only_attribute_error _ "/foo" "GET").
  vm_compute; reflexivity.
Defined.

(** [Route.handle] on a path the route does not match never returns a
    deferred invocation: it raises [AttributeError] when the callback does
    not resolve, and otherwise [TypeError], from unpacking the [None] that
    [_match] returned. *)
Theorem handle_on_unmatched_path_raises (r : Route.t) (route : string) :
  Route._match r route = None →
  Route.handle r route
  = Raise (match resolve r with Some _ => TypeError | None => AttributeError end).
Proof.
  intros Hm. unfold Route.handle, resolve, getattr. rewrite Hm.
  by destruct (Route._instance r !! Route._callback r) as [[|f]|].
Qed.

Lemma handle_on_unmatched_path_raises_witness :
  ∃ r, Route.__init__ "/test" demo_endpoint "index" None = Some r
       ∧ Route._match r "/other" = None
       ∧ Route.handle r "/other"
         = Raise (match resolve r with Some _ => TypeError | None => AttributeError end)
       ∧ Route.handle r "/other" = Raise TypeError.
Proof.
  eexists. split; [vm_compute; reflexivity|].
  split; [vm_compute; reflexivity|].
  split; [|vm_compute; reflexivity].
  apply handle_on_unmatched_path_raises. vm_compute; reflexivity.
Defined.

(** ** Splitting a name at its first double underscore *)

Lemma split2_unfold (c : ascii) (s : string) :
  split2 (String c s)
  = match s with
    | String c' rest =>
        if Ascii.eqb c "_"%char && Ascii.eqb c' "_"%char then Some ("", rest)
        else match split2 s with
             | Some (k, v) => Some (String c k, v)
             | None => None
             end
    | EmptyString => None
    end.
Proof.
  destruct s as [|c' rest].
  - by destruct c as [[] [] [] [] [] [] [] []].
  - destruct (Ascii.eqb c "_"%char) eqn:Hc.
    + apply Ascii.eqb_eq in Hc as ->.
      destruct (Ascii.eqb c' "_"%char) eqn:Hc'.
      * by apply Ascii.eqb_eq in Hc' as ->.
      * destruct c' as [[] [] [] [] [] [] [] []]; try done.
    + destruct c as [[] [] [] [] [] [] [] []]; try done.
Qed.

Lemma split2_join_Some (s k v : string) :
  split2 s = Some (k, v) → s = k +:+ "__" +:+ v ∧ split2 (k +:+ "_") = None.
Proof.
  revert k v. induction s as [|c s IH]; intros k v; [done|].
  rewrite split2_unfold. destruct s as [|c' rest]; [done|].
  destruct (Ascii.eqb c "_"%char && Ascii.eqb c' "_"%char) eqn:Hcc.
  - apply andb_true_iff in Hcc as [->%Ascii.eqb_eq ->%Ascii.eqb_eq].
    intros [= <- <-]. done.
  - destruct (split2 (String c' rest)) as [[k' v']|] eqn:Hs; [|done].
    intros [= <- <-]. destruct (IH k' v' eq_refl) as [Heq Hnone].
    split; [by rewrite (app_cons c k' ("__" +:+ v')), <- Heq|].
    rewrite (app_cons c k' "_"), split2_unfold.
    destruct (k' +:+ "_") as [|c'' rest'] eqn:Hk; [done|]. rewrite Hnone.
    assert (c'' = c') as ->.
    { destruct k' as [|c0 k'].
      - injection Heq as -> _. by injection Hk as <- _.
      - rewrite (app_cons c0 k' ("__" +:+ v')) in Heq. rewrite (app_cons c0 k' "_") in Hk.
        injection Heq as -> _. by injection Hk as <- _. }
    by rewrite Hcc.
Qed.

Lemma split2_join (k v : string) :
  split2 (k +:+ "_") = None → split2 (k +:+ "__" +:+ v) = Some (k, v).
Proof.
  induction k as [|c k IH]; [done|]. intros Hn.
  rewrite (app_cons c k "_") in Hn. rewrite (app_cons c k ("__" +:+ v)).
  rewrite split2_unfold in Hn. rewrite split2_unfold.
  assert (∃ c' rest rest', k +:+ "_" = String c' rest
                           ∧ k +:+ "__" +:+ v = String c' rest')
    as (c' & rest & rest' & Hk & Hk').
  { destruct k as [|c0 k]; [by eexists _, _, _|].
    rewrite (app_cons c0 k "_"), (app_cons c0 k ("__" +:+ v)). by eexists _, _, _. }
  rewrite Hk in Hn, IH. rewrite Hk'. rewrite Hk' in IH.
  destruct (Ascii.eqb c "_"%char && Ascii.eqb c' "_"%char); [done|].
  destruct (split2 (String c' rest)) as [[??]|] eqn:Hs; [done|].
  by rewrite (IH eq_refl).
Qed.

Lemma split2_occurrence (a b : string) : is_Some (split2 (a +:+ "__" +:+ b)).
Proof.
  induction a as [|c a IH]; [by eexists|].
  rewrite (app_cons c a ("__" +:+ b)), split2_unfold.
  destruct (a +:+ "__" +:+ b) as [|c' rest] eqn:Ha; [by destruct a|].
  destruct (_ && _); [by eexists|].
  destruct IH as [[k v] ->]. by eexists.
Qed.

(** [split("__", 1)] cuts a name at its leftmost double underscore: the
    result is [(k, v)] exactly when the name is [k], the separator and
    [v], and no separator starts inside [k] or at its last character; and
    the unpacking fails exactly when the name holds no separator. *)
Theorem split2_is_leftmost_cut (s : string) :
  (∀ k v, split2 s = Some (k, v)
          ↔ s = k +:+ "__" +:+ v ∧ split2 (k +:+ "_") = None)
  ∧ (split2 s = None ↔ ∀ a b, s ≠ a +:+ "__" +:+ b).
Proof.
  split.
  - intros k v. split; [apply split2_join_Some|].
    intros [-> Hk]. by apply split2_join.
  - split.
    + intros Hs a b ->. destruct (split2_occurrence a b) as [? H]. congruence.
    + intros Hn. destruct (split2 s) as [[k v]|] eqn:Hs; [|done].
      apply split2_join_Some in Hs as [-> _]. by destruct (Hn k v).
Qed.

(** ** Templates: what compiles and what a plain template handles *)

Lemma at_end_spec (s : string) : re.at_end s = true ↔ s = "" ∨ s = nl.
Proof.
  destruct s as [|c [|c' s]]; simpl.
  - split; [by left|done].
  - rewrite Ascii.eqb_eq. unfold nl. split.
    + intros ->. by right.
    + by intros [|[= ->]].
  - split; [done|]. by intros [|].
Qed.

(** A route whose template is plain literal text handles that text, and
    that text followed by one newline, and nothing else. *)
Theorem plain_template_handles_itself_and_newline (t : string)
    (instance : gmap string Attr) (method_str : string)
    (methods : option (list string)) :
  plain t = true →
  ∃ r, Route.__init__ t instance method_str methods = Some r
       ∧ ∀ path method,
           Route.handles_route r path method = true
           ↔ (path = t ∨ path = t +:+ nl) ∧ method ∈ Route._methods r.
Proof.
  intros Ht.
  assert (well_formed [Text t]) as Hwf.
  { split; [simpl; by rewrite Ht|constructor]. }
  destruct (template_route [Text t] instance method_str methods Hwf) as (r & Hr & Hp).
  cbn [template render] in Hr. rewrite app_empty_r in Hr.
  exists r. split; [done|]. intros path method.
  rewrite handles_route_spec, (template_match r [Text t] path Hp).
  cbn [body_ops seg_ops]. rewrite app_nil_r.
  assert (is_Some (re.exec path (lits t ++ [re.Eol]) 0 [] ∅)
          ↔ path = t ∨ path = t +:+ nl) as Hm.
  { split.
    - intros [m Hm]. destruct (exec_lits_Some _ _ _ _ _ _ _ Hm) as [rest Hd].
      rewrite (exec_lits_match _ _ _ _ _ _ _ Hd) in Hm. cbn [str_drop] in Hd.
      subst path. cbn [re.exec Nat.add] in Hm. rewrite str_drop_app in Hm.
      destruct (re.at_end rest) eqn:He; [|done].
      apply at_end_spec in He as [->| ->]; [left; by rewrite app_empty_r|by right].
    - intros Hpath.
      assert (∃ rest, path = t +:+ rest ∧ re.at_end rest = true) as (rest & -> & He).
      { destruct Hpath as [->| ->]; [exists ""|exists nl];
          (split; [by rewrite ?app_empty_r|done]). }
      rewrite (exec_lits_match _ t rest); [|done].
      cbn [re.exec Nat.add]. rewrite str_drop_app, He. by eexists. }
  rewrite <- Hm. destruct (re.exec path _ 0 [] ∅); split; intros [H1 H2]; split;
    try done; by destruct H1.
Qed.

Lemma plain_template_handles_itself_and_newline_witness :
  plain "/test" = true
  ∧ ∃ r, Route.__init__ "/test" ∅ "index" None = Some r
       ∧ ∀ path method,
           Route.handles_route r path method = true
           ↔ (path = "/test" ∨ path = "/test" +:+ nl) ∧ method ∈ Route._methods r.
Proof.
  split; [reflexivity|].
  apply (plain_template_handles_itself_and_newline "/test" ∅ "index" None).
  reflexivity.
Defined.

Lemma compile_template_names (segs : list segment) :
  forallb segment_ok segs = true →
  Route._compile_regex (template segs)
  = if bool_decide (NoDup (placeholders segs))
    then Some (re.mk_Pattern ("^" +:+ body_text segs +:+ "$")
                 (re.Bol :: body_ops segs ++ [re.Eol]))
    else None.
Proof.
  intros Hok. unfold Route._compile_regex, re.compile.
  rewrite (sub_angle_template segs Hok). rewrite app_cons, app_empty_l.
  cbn [re.steps]. change (re.step re.initial "^"%char)
    with (Some (re.mk_pstate [re.Bol] re.Normal false)).
  cbv iota beta. rewrite steps_app.
  destruct (steps_body segs [re.Bol] false Hok) as [q ->].
  cbn [re.steps]. unfold re.step at 1. simpl.
  rewrite rev_app_distr, rev_involutive. simpl.
  rewrite balanced_body. simpl.
  rewrite group_names_body. simpl. by rewrite app_nil_r.
Qed.

(** A template that names two placeholders alike has no route: the
    pattern it compiles to defines a group name twice, which [re]
    rejects. *)
Theorem repeated_placeholder_has_no_route (segs : list segment)
    (instance : gmap string Attr) (method_str : string)
    (methods : option (list string)) :
  forallb segment_ok segs = true →
  ¬ NoDup (placeholders segs) →
  Route.__init__ (template segs) instance method_str methods = None.
Proof.
  intros Hok Hdup. unfold Route.__init__.
  by rewrite (compile_template_names segs Hok), bool_decide_eq_false_2.
Qed.

Lemma repeated_placeholder_has_no_route_witness :
  forallb segment_ok [Text "/"; Placeholder "a"; Text "/"; Placeholder "a"] = true
  ∧ ¬ NoDup (placeholders [Text "/"; Placeholder "a"; Text "/"; Placeholder "a"])
  ∧ Route.__init__ "/<a>/<a>" ∅ "index" None = None.
Proof.
  assert (¬ NoDup (placeholders [Text "/"; Placeholder "a"; Text "/"; Placeholder "a"]))
    as Hdup.
  { apply (bool_decide_eq_false_1 _). vm_compute. reflexivity. }
  split; [reflexivity|]. split; [exact Hdup|].
  exact (repeated_placeholder_has_no_route
           [Text "/"; Placeholder "a"; Text "/"; Placeholder "a"] ∅ "index" None
           eq_refl Hdup).
Defined.

Lemma sub_angle_without_closing (s : string) (acc : option string) :
  str_forall (fun c => negb (Ascii.eqb c ">"%char)) s = true →
  re.sub_angle acc s
  = match acc with
    | None => s
    | Some a => String "<"%char (a +:+ s)
    end.
Proof.
  revert acc. induction s as [|c s IH]; intros acc; simpl.
  - intros _. destruct acc; [by rewrite app_empty_r|done].
  - intros [Hc Hs]%andb_true_iff. apply negb_true_iff in Hc.
    destruct acc as [a|].
    + rewrite Hc. destruct (Ascii.eqb c newline).
      * rewrite (IH None Hs). by rewrite app_cons.
      * rewrite (IH _ Hs). by rewrite (app_assoc_str a (String c "") s).
    + destruct (Ascii.eqb c "<"%char) eqn:Hlt.
      * apply Ascii.eqb_eq in Hlt as ->. by rewrite (IH _ Hs).
      * by rewrite (IH None Hs).
Qed.

(** A template in which no placeholder is closed is compiled as it is
    written, between the two anchors: the substitution rewrites complete
    angle-bracket pairs only. *)
Theorem template_without_closing_bracket_is_kept (url : string) :
  str_forall (fun c => negb (Ascii.eqb c ">"%char)) url = true →
  Route._compile_regex url = re.compile ("^" +:+ url +:+ "$").
Proof.
  intros H. unfold Route._compile_regex.
  by rewrite (sub_angle_without_closing url None H).
Qed.

Lemma template_without_closing_bracket_is_kept_witness :
  str_forall (fun c => negb (Ascii.eqb c ">"%char)) "/a<b" = true
  ∧ Route._compile_regex "/a<b" = re.compile ("^" +:+ "/a<b" +:+ "$").
Proof.
  split; [reflexivity|].
  apply template_without_closing_bracket_is_kept. reflexivity.
Defined.

(** ** Further properties of the binder *)

Lemma extract_lookup (app : AppContainer.t) (m : partial.t)
    (request : Request.t) (param : string) :
  AppContainer._extract_params_from_request app m request !! param
  = if decide (param ∈ Function.args (Function.argspec (partial.func m))
               ∧ param ≠ "self" ∧ url_captures m !! param = None)
    then lookup_param (AppContainer._arg_providers app) request param
    else None.
Proof.
  unfold AppContainer._extract_params_from_request.
  rewrite extract_fold_lookup, lookup_empty.
  assert (match lookup_param (AppContainer._arg_providers app) request param with
          | Some v => Some v
          | None => None
          end = lookup_param (AppContainer._arg_providers app) request param) as ->
    by (by destruct (lookup_param _ _ _)).
  destruct (decide (param ∈ elements (AppContainer.remaining_args m))) as [Hin|Hin];
    rewrite elem_of_elements, elem_of_remaining_args in Hin.
  - destruct Hin as ([Ha|(k & Hk & Hc)] & Hu & Hs).
    + by rewrite decide_True.
    + unfold lookup_param. rewrite (split2_chars k param Hc). by case_decide.
  - rewrite decide_False; [done|]. tauto.
Qed.

(** The binder reads a handler's signature as a set of names: two
    deferred invocations with the same positional names (in any order) and
    the same captured names are bound alike, whatever their defaults, star
    parameters, stored values and bodies. *)
Theorem binder_reads_names_only (app : AppContainer.t) (m m' : partial.t)
    (request : Request.t) :
  (∀ p, p ∈ Function.args (Function.argspec (partial.func m))
        ↔ p ∈ Function.args (Function.argspec (partial.func m'))) →
  (∀ p, url_captures m !! p = None ↔ url_captures m' !! p = None) →
  AppContainer._extract_params_from_request app m request
  = AppContainer._extract_params_from_request app m' request.
Proof.
  intros Hargs Hcap. apply map_eq. intros p. rewrite !extract_lookup.
  destruct (decide (_ ∧ _ ∧ url_captures m !! p = None)) as [H|H];
    destruct (decide (_ ∧ _ ∧ url_captures m' !! p = None)) as [H'|H']; try done.
  - exfalso. apply H'. rewrite <- Hargs, <- Hcap. done.
  - exfalso. apply H. rewrite Hargs, Hcap. done.
Qed.

Lemma binder_reads_names_only_witness :
  let m := partial.mk
             (Function.mk (Function.mk_ArgSpec ["self"; "short_id"; "get__q"; "post__url"]
                             None None [VStr "dflt"])
                (fun _ => None))
             (Some {[ "short_id" := VStr "abc" ]}) in
  let m' := partial.mk
              (Function.mk (Function.mk_ArgSpec ["post__url"; "get__q"; "self"; "short_id"]
                              (Some "rest") (Some "kw") [])
                 (fun env => Some env))
              (Some {[ "short_id" := VNone ]}) in
  let app := AppContainer.__init__ (Router.mk []) None None in
  let request := Request.mk "/" "GET" {[ "q" := "1" ]} ∅ ∅ in
  (∀ p, p ∈ Function.args (Function.argspec (partial.func m))
        ↔ p ∈ Function.args (Function.argspec (partial.func m')))
  ∧ (∀ p, url_captures m !! p = None ↔ url_captures m' !! p = None)
  ∧ AppContainer._extract_params_from_request app m request
    = AppContainer._extract_params_from_request app m' request.
Proof.
  intros m m' app request.
  assert (∀ p, p ∈ Function.args (Function.argspec (partial.func m))
               ↔ p ∈ Function.args (Function.argspec (partial.func m'))) as Hargs.
  { intros p. simpl. rewrite !elem_of_cons, !elem_of_nil. tauto. }
  assert (∀ p, url_captures m !! p = None ↔ url_captures m' !! p = None) as Hcap.
  { intros p. unfold url_captures. simpl. rewrite !lookup_singleton_None. tauto. }
  split; [exact Hargs|]. split; [exact Hcap|].
  exact (binder_reads_names_only app m m' request Hargs Hcap).
Defined.

(** A name the URL captured is never looked up in a provider, even when it
    has a provider's prefix, and a call that goes through enters the handler
    with the captured value. *)
Theorem url_capture_is_not_rebound (app : AppContainer.t) (m : partial.t)
    (request : Request.t) (name : string) (v : Value) :
  url_captures m !! name = Some v →
  AppContainer._extract_params_from_request app m request !! name = None
  ∧ ∀ res,
      partial.call m (AppContainer._extract_params_from_request app m request) = Ok res →
      ∃ env, res = Function.body (partial.func m) env ∧ env !! name = Some v.
Proof.
  intros Hv.
  assert (AppContainer._extract_params_from_request app m request !! name = None) as Hn.
  { rewrite extract_lookup, decide_False; [done|]. rewrite Hv. by intros (_ & _ & ?). }
  split; [done|]. intros res Hc. unfold partial.call in Hc.
  apply call_enters_with_keywords in Hc as (env & -> & Henv).
  exists env. split; [done|]. apply Henv.
  apply lookup_union_Some_raw. right. done.
Qed.

(** A handler whose URL placeholder bears a provider's prefix: the demo's
    [follow_url] with its parameter renamed [get__id]. *)
Lemma url_capture_is_not_rebound_witness :
  let f := Function.mk (Function.mk_ArgSpec ["self"; "get__id"] None None [])
             (fun env => Some env) in
  let m := partial.mk f (Some {[ "get__id" := VStr "from-url" ]}) in
  let app := AppContainer.__init__ (Router.mk []) None None in
  let request := Request.mk "/from-url" "GET" {[ "id" := "from-query" ]} ∅ ∅ in
  url_captures m !! "get__id" = Some (VStr "from-url")
  ∧ partial.call m (AppContainer._extract_params_from_request app m request)
    = Ok (Some {[ "get__id" := VStr "from-url" ]})
  ∧ (AppContainer._extract_params_from_request app m request !! "get__id" = None
     ∧ ∀ res,
         partial.call m (AppContainer._extract_params_from_request app m request) = Ok res →
         ∃ env, res = Function.body (partial.func m) env
                ∧ env !! "get__id" = Some (VStr "from-url")).
Proof.
  intros f m app request.
  split; [reflexivity|]. split; [vm_compute; reflexivity|].
  apply (url_capture_is_not_rebound app m request "get__id" (VStr "from-url")).
  reflexivity.
Defined.

(** The provider table answers for a prefix with the last provider of
    that prefix in the list the container was given: an earlier provider
    of the same prefix is replaced, and a prefix no provider has is absent. *)
Theorem later_provider_replaces_earlier (providers : list ArgProvider.t)
    (prefix : string) :
  (∀ p, AppContainer.request_lookup_table providers !! prefix = Some p
        ↔ ∃ l1 l2, providers = l1 ++ p :: l2
                   ∧ ArgProvider.get_prefix p = prefix
                   ∧ Forall (fun q => ArgProvider.get_prefix q ≠ prefix) l2)
  ∧ (AppContainer.request_lookup_table providers !! prefix = None
     ↔ Forall (fun q => ArgProvider.get_prefix q ≠ prefix) providers).
Proof.
  rewrite request_lookup_table_spec. unfold registered. split.
  - intros p. split.
    + intros Hl. destruct (last_filter_Some _ _ _ Hl) as (l1 & l2 & -> & Hl2).
      exists l1, l2. split; [done|]. split; [|done].
      apply last_Some in Hl as [l' Hl].
      assert (p ∈ filter (fun p0 => ArgProvider.get_prefix p0 = prefix) (l1 ++ p :: l2))
        as Hin by (rewrite Hl; apply elem_of_app; right; left).
      by apply list_elem_of_filter in Hin as [? _].
    + intros (l1 & l2 & -> & Hp & Hl2).
      rewrite filter_app, filter_cons_True by done.
      assert (filter (fun p0 => ArgProvider.get_prefix p0 = prefix) l2 = []) as ->.
      { clear -Hl2. induction Hl2 as [|q l2 Hq _ IH]; [done|].
        by rewrite filter_cons_False. }
      by rewrite last_snoc.
  - rewrite last_None. split.
    + intros Hf. apply Forall_forall. intros q Hq Hpre.
      assert (q ∈ filter (fun p0 => ArgProvider.get_prefix p0 = prefix) providers) as Hin
        by (by apply list_elem_of_filter).
      rewrite Hf in Hin. by apply elem_of_nil in Hin.
    + intros Hall. induction Hall as [|q l Hq _ IH]; [done|].
      by rewrite filter_cons_False.
Qed.

(** ** Further properties of response mutation *)

Lemma mutations_lookup (app : AppContainer.t) (json_obj : gmap string Value)
    (response : Response.t) (key : string) :
  (AppContainer.apply_consumer_mutations app json_obj response).1 !! key
  = if decide (is_Some (directive (AppContainer._consumers app) key))
    then None else json_obj !! key.
Proof.
  unfold AppContainer.apply_consumer_mutations. rewrite mutate_fold_lookup. simpl.
  destruct (decide (is_Some (directive (AppContainer._consumers app) key))) as [Hd|Hd].
  - destruct (json_obj !! key) as [v|] eqn:Hk.
    + rewrite decide_True; [done|]. split; [|done].
      apply list_elem_of_fmap. exists (key, v). split; [done|].
      by apply elem_of_map_to_list.
    + by case_decide.
  - rewrite decide_False; [done|]. tauto.
Qed.

Lemma apply_items_without_directive (consumers : list ResponseConsumer.t)
    (items : list (string * Value)) (response : Response.t) :
  Forall (fun item => directive consumers item.1 = None) items →
  foldl (apply_item consumers) response items = response.
Proof.
  induction 1 as [|item items Hi _ IH]; [done|].
  cbn [foldl]. unfold apply_item at 2. by rewrite Hi.
Qed.

Lemma mutations_identity (app : AppContainer.t) (json_obj : gmap string Value)
    (response : Response.t) :
  (∀ key, is_Some (json_obj !! key) →
          directive (AppContainer._consumers app) key = None) →
  AppContainer.apply_consumer_mutations app json_obj response = (json_obj, response).
Proof.
  intros Hnone.
  rewrite (surjective_pairing (AppContainer.apply_consumer_mutations _ _ _)). f_equal.
  - apply map_eq. intros key. rewrite mutations_lookup. case_decide as Hd; [|done].
    destruct (json_obj !! key) as [v|] eqn:Hk; [|done].
    rewrite Hnone in Hd by eauto. by destruct Hd.
  - unfold AppContainer.apply_consumer_mutations. rewrite mutate_fold_response.
    apply apply_items_without_directive, Forall_forall.
    intros [key v] Hin%elem_of_map_to_list. apply Hnone. simpl. eauto.
Qed.

(** A result mapping none of whose keys is a directive goes through
    response mutation untouched, and so does the response. *)
Theorem mapping_without_directives_is_untouched (app : AppContainer.t)
    (json_obj : gmap string Value) (response : Response.t) :
  (∀ key, is_Some (json_obj !! key) →
          directive (AppContainer._consumers app) key = None) →
  AppContainer.apply_consumer_mutations app json_obj response = (json_obj, response).
Proof.
  intros Hnone.
  assert (Forall (λ item, directive (AppContainer._consumers app) item.1 = None)
            (map_to_list json_obj)) as Hitems.
  { apply Forall_forall. intros [key v] Hin%elem_of_map_to_list.
    apply Hnone. simpl. eauto. }
  rewrite (surjective_pairing (AppContainer.apply_consumer_mutations _ _ _)). f_equal.
  - apply map_eq. intros key. rewrite mutations_lookup. case_decide as Hd; [|done].
    destruct (json_obj !! key) as [v|] eqn:Hk; [|done].
    rewrite Hnone in Hd by eauto. by destruct Hd.
  - unfold AppContainer.apply_consumer_mutations. rewrite mutate_fold_response.
    by apply apply_items_without_directive.
Qed.

Lemma mapping_without_directives_is_untouched_witness :
  let app := AppContainer.__init__ (Router.mk []) None None in
  let json_obj : gmap string Value :=
    <["url" := VStr "http://x"]> {[ "session__id" := VStr "7" ]} in
  let response := Response.__init__ "application/json" in
  (∀ key, is_Some (json_obj !! key) →
          directive (AppContainer._consumers app) key = None)
  ∧ AppContainer.apply_consumer_mutations app json_obj response = (json_obj, response).
Proof.
  intros app json_obj response.
  assert (∀ key, is_Some (json_obj !! key) →
                 directive (AppContainer._consumers app) key = None) as H.
  { intros key [v Hv]. unfold json_obj in Hv.
    apply lookup_insert_Some in Hv as [[<- _]|[_ Hv]]; [reflexivity|].
    apply lookup_singleton_Some in Hv as [<- _]. reflexivity. }
  split; [exact H|].
  exact (mapping_without_directives_is_untouched app json_obj response H).
Defined.

(** Response mutation is idempotent: a second pass over its own result
    removes nothing more and applies no consumer. *)
Theorem response_mutation_is_idempotent (app : AppContainer.t)
    (json_obj : gmap string Value) (response : Response.t) :
  let result := AppContainer.apply_consumer_mutations app json_obj response in
  AppContainer.apply_consumer_mutations app result.1 result.2 = result.
Proof.
  intros result. rewrite mutations_identity; [by destruct result|].
  intros key [v Hv]. unfold result in Hv. rewrite mutations_lookup in Hv.
  case_decide as Hd; [done|].
  destruct (directive (AppContainer._consumers app) key); [|done].
  exfalso. eauto.
Qed.




(** ** Further properties of the dispatcher *)

Lemma dispatch_routes_irrelevant (routes1 routes2 : list Router.t)
    (providers : list ArgProvider.t) (consumers : list ResponseConsumer.t)
    (routes : list Router.t) (request : Request.t) :
  AppContainer.dispatch (AppContainer.mk routes1 providers consumers) routes request
  = AppContainer.dispatch (AppContainer.mk routes2 providers consumers) routes request.
Proof.
  induction routes as [|router rest IH]; [done|]. cbn [AppContainer.dispatch].
  destruct (Router.match_ router _ _) as [[m|]|exn]; simpl; [|done..].
  change (AppContainer._extract_params_from_request
            (AppContainer.mk routes1 providers consumers) m request)
    with (AppContainer._extract_params_from_request
            (AppContainer.mk routes2 providers consumers) m request).
  destruct (partial.call m _) as [[vm|]|exn]; simpl; done.
Qed.

Lemma dispatch_skips_declining (app : AppContainer.t) (request : Request.t)
    (skipped rest : list Router.t) :
  Forall (declines app request) skipped →
  AppContainer.dispatch app (skipped ++ rest) request
  = AppContainer.dispatch app rest request.
Proof.
  induction 1 as [|router skipped Hd _ IH]; [done|].
  rewrite <- app_comm_cons. cbn [AppContainer.dispatch]. rewrite router_match_first.
  unfold declines in Hd.
  destruct (list_find _ (Router.endpoints router)) as [[i e]|]; simpl; [|done].
  destruct Hd as (m & -> & Hc). simpl. by rewrite Hc.
Qed.

Lemma declines_of_match (app : AppContainer.t) (request : Request.t)
    (router : Router.t) :
  Router.match_ router (Request.path request) (Request.method request) = Ok None
  ∨ (∃ m, Router.match_ router (Request.path request) (Request.method request)
          = Ok (Some m)
          ∧ partial.call m (AppContainer._extract_params_from_request app m request)
            = Ok None) →
  declines app request router.
Proof.
  unfold declines. rewrite router_match_first.
  destruct (list_find _ (Router.endpoints router)) as [[i e]|]; [|done].
  intros [H|(m & H & Hc)]; destruct (Route.handle e _) as [m'|]; simpl in H; try done.
  injection H as ->. by exists m.
Qed.

(** Routers that decline a request are passed over: the dispatcher answers
    as the container of the remaining routers does. *)
Theorem declining_routers_are_skipped (skipped rest : list Router.t)
    (providers : list ArgProvider.t) (consumers : list ResponseConsumer.t)
    (request : Request.t) :
  Forall (declines (AppContainer.mk (skipped ++ rest) providers consumers) request)
    skipped →
  AppContainer.wsgi_app (AppContainer.mk (skipped ++ rest) providers consumers) request
  = AppContainer.wsgi_app (AppContainer.mk rest providers consumers) request.
Proof.
  intros Hs. unfold AppContainer.wsgi_app. simpl.
  rewrite (dispatch_skips_declining _ _ _ _ Hs).
  apply dispatch_routes_irrelevant.
Qed.

Lemma declining_routers_are_skipped_witness :
  ∃ r1 r2,
    Route.__init__ "/" {[ "index" := AttrMethod returns_none ]} "index" None = Some r1
    ∧ Route.__init__ "/" demo_endpoint "index" None = Some r2
    ∧ let skipped := [Router.mk [r1]; Router.mk []] in
      let rest := [Router.mk [r2]] in
      let request := Request.mk "/" "GET" ∅ ∅ ∅ in
      Forall (declines (AppContainer.mk (skipped ++ rest) [] []) request) skipped
      ∧ AppContainer.wsgi_app (AppContainer.mk (skipped ++ rest) [] []) request
        = AppContainer.wsgi_app (AppContainer.mk rest [] []) request
      ∧ AppContainer.wsgi_app (AppContainer.mk rest [] []) request
        = Ok (Response.mk "application/json" []
                (JsonObject {[ "message" := VStr "WELCOME" ]})).
Proof.
  do 2 eexists. split; [vm_compute; reflexivity|]. split; [vm_compute; reflexivity|].
  intros skipped rest request.
  assert (Forall (declines (AppContainer.mk (skipped ++ rest) [] []) request) skipped)
    as Hs.
  { constructor; [|constructor; [|constructor]].
    - apply declines_of_match. right. eexists.
      split; [vm_compute; reflexivity|]. vm_compute; reflexivity.
    - apply declines_of_match. left. reflexivity. }
  split; [exact Hs|]. split; [|vm_compute; reflexivity].
  exact (declining_routers_are_skipped skipped rest [] [] request Hs).
Defined.

(** A route that handles the request and whose callback does not resolve
    ends the dispatch with [AttributeError]: the routes after it and the
    routers after its own are not consulted. *)
Theorem unresolved_handler_aborts_dispatch (skipped rest : list Router.t)
    (before after : list Route.t) (e : Route.t)
    (providers : list ArgProvider.t) (consumers : list ResponseConsumer.t)
    (request : Request.t) :
  let routes := skipped ++ Router.mk (before ++ e :: after) :: rest in
  Forall (declines (AppContainer.mk routes providers consumers) request) skipped →
  Forall (fun e' => Route.handles_route e' (Request.path request)
                      (Request.method request) = false) before →
  Route.handles_route e (Request.path request) (Request.method request) = true →
  resolve e = None →
  AppContainer.wsgi_app (AppContainer.mk routes providers consumers) request
  = Raise AttributeError.
Proof.
  intros routes Hs Hb He Hr. unfold AppContainer.wsgi_app. simpl.
  unfold routes at 2. rewrite (dispatch_skips_declining _ _ _ _ Hs).
  cbn [AppContainer.dispatch]. unfold Router.match_. simpl.
  assert (Router.match_endpoints (before ++ e :: after) (Request.path request)
            (Request.method request) = Raise AttributeError) as ->; [|done].
  clear Hs. induction Hb as [|e' before He' Hb IH]; simpl.
  - rewrite He. destruct (handle_of_handled e _ _ He) as (params & _ & ->).
    by rewrite Hr.
  - by rewrite He'.
Qed.

Lemma unresolved_handler_aborts_dispatch_witness :
  ∃ r1 r2,
    Route.__init__ "/<id>" ∅ "missing" None = Some r1
    ∧ Route.__init__ "/<id>" demo_endpoint "index" None = Some r2
    ∧ let request := Request.mk "/abc" "GET" ∅ ∅ ∅ in
      let routes := [] ++ Router.mk ([] ++ r1 :: [r2]) :: [Router.mk [r2]] in
      Route.handles_route r1 "/abc" "GET" = true
      ∧ resolve r1 = None
      ∧ AppContainer.wsgi_app (AppContainer.mk routes [] []) request
        = Raise AttributeError.
Proof.
  do 2 eexists. split; [vm_compute; reflexivity|]. split; [vm_compute; reflexivity|].
  intros request routes.
  split; [vm_compute; reflexivity|]. split; [vm_compute; reflexivity|].
  apply (unresolved_handler_aborts_dispatch [] _ [] _ _ [] [] request).
  - constructor.
  - constructor.
  - vm_compute; reflexivity.
  - vm_compute; reflexivity.
Defined.

Lemma dispatch_ok_body (app : AppContainer.t) (request : Request.t)
    (routes : list Router.t) (response : Response.t) :
  AppContainer.dispatch app routes request = Ok response →
  ∃ router m value_map,
    router ∈ routes
    ∧ Router.match_ router (Request.path request) (Request.method request) = Ok (Some m)
    ∧ partial.call m (AppContainer._extract_params_from_request app m request)
      = Ok (Some value_map)
    ∧ Response.data response
      = JsonObject (filter (fun kv => directive (AppContainer._consumers app) kv.1 = None)
                      value_map).
Proof.
  induction routes as [|router rest IH]; [done|]. cbn [AppContainer.dispatch].
  destruct (Router.match_ router _ _) as [[m|]|exn] eqn:Hm; simpl; [| |done].
  - destruct (partial.call m _) as [[vm|]|exn] eqn:Hc; simpl; [| |done].
    + destruct (AppContainer.apply_consumer_mutations app vm _) as [vm' resp'] eqn:Ha.
      intros [= <-]. exists router, m, vm. split; [left|]. split; [done|].
      split; [done|]. simpl. unfold json_dumps. f_equal.
      assert (vm' = (AppContainer.apply_consumer_mutations app vm
                       (Response.__init__ "application/json")).1) as ->
        by (by rewrite Ha).
      apply map_eq. intros key. rewrite mutations_lookup.
      destruct (vm !! key) as [v|] eqn:Hk.
      * case_decide as Hd.
        -- symmetry. apply map_lookup_filter_None. right. intros v' _ Hn.
           simpl in Hn. rewrite Hn in Hd. by destruct Hd.
        -- symmetry. apply map_lookup_filter_Some. split; [done|]. simpl.
           destruct (directive _ key); [|done]. exfalso. eauto.
      * assert (filter (fun kv => directive (AppContainer._consumers app) kv.1 = None)
                  vm !! key = None) as ->
          by (apply map_lookup_filter_None; by left).
        by case_decide.
    + intros (r & m' & vm & Hin & ?)%IH. exists r, m', vm. split; [by right|done].
  - intros (r & m' & vm & Hin & ?)%IH. exists r, m', vm. split; [by right|done].
Qed.

(** A response the dispatcher returns carries as its body the mapping a
    matched handler returned, without the keys that are directives: no key
    of the serialized body has the prefix of a registered consumer before
    its first double underscore. *)
Theorem served_body_holds_no_directive (app : AppContainer.t)
    (request : Request.t) (response : Response.t) :
  AppContainer.wsgi_app app request = Ok response →
  ∃ router m value_map body,
    router ∈ AppContainer._routes app
    ∧ Router.match_ router (Request.path request) (Request.method request) = Ok (Some m)
    ∧ partial.call m (AppContainer._extract_params_from_request app m request)
      = Ok (Some value_map)
    ∧ Response.data response = JsonObject body
    ∧ body ⊆ value_map
    ∧ ∀ key, is_Some (body !! key) →
             directive (AppContainer._consumers app) key = None.
Proof.
  intros (router & m & vm & Hin & Hm & Hc & Hd)%dispatch_ok_body.
  exists router, m, vm, (filter (fun kv => directive (AppContainer._consumers app) kv.1 = None) vm).
  split; [done|]. split; [done|]. split; [done|]. split; [done|].
  split; [apply map_filter_subseteq|].
  intros key [v Hv]. by apply map_lookup_filter_Some in Hv as [_ Hv].
Qed.

Lemma served_body_holds_no_directive_witness :
  ∃ r,
    Route.__init__ "/" demo_endpoint "index" None = Some r
    ∧ let app := AppContainer.__init__ (Router.mk [r]) None None in
      let request := Request.mk "/" "GET" ∅ ∅ ∅ in
      let response := Response.mk "application/json" []
                        (JsonObject {[ "message" := VStr "WELCOME" ]}) in
      AppContainer.wsgi_app app request = Ok response
      ∧ ∃ router m value_map body,
          router ∈ AppContainer._routes app
          ∧ Router.match_ router (Request.path request) (Request.method request)
            = Ok (Some m)
          ∧ partial.call m (AppContainer._extract_params_from_request app m request)
            = Ok (Some value_map)
          ∧ Response.data response = JsonObject body
          ∧ body ⊆ value_map
          ∧ ∀ key, is_Some (body !! key) →
                   directive (AppContainer._consumers app) key = None.
Proof.
  eexists. split; [vm_compute; reflexivity|]. intros app request response.
  assert (AppContainer.wsgi_app app request = Ok response) as H
    by (vm_compute; reflexivity).
  split; [exact H|]. exact (served_body_holds_no_directive app request response H).
Defined.

(** ** The routes of the demo application *)

Lemma no_newline_app (s t : string) :
  no_newline (s +:+ t) = no_newline s && no_newline t.
Proof.
  unfold no_newline. induction s as [|c s IH]; [done|]. rewrite app_cons. simpl.
  by rewrite IH, andb_assoc.
Qed.

Lemma app_cancel_r (s s' t : string) : s +:+ t = s' +:+ t → s = s'.
Proof.
  revert s'. induction s as [|c s IH]; intros [|c' s'] H.
  - done.
  - exfalso. apply (f_equal String.length) in H.
    rewrite !app_length_str in H. simpl in H. lia.
  - exfalso. apply (f_equal String.length) in H.
    rewrite !app_length_str in H. simpl in H. lia.
  - rewrite !app_cons in H. injection H as -> H. by rewrite (IH s' H).
Qed.

(** The match of a template's route on a path with exactly one spelling. *)
Lemma template_match_unique (r : Route.t) (segs : list segment) (path : string)
    (vals : list string) :
  re.prog (Route._re r) = re.Bol :: body_ops segs ++ [re.Eol] →
  NoDup (placeholders segs) →
  no_newline path = true →
  length vals = length (placeholders segs) →
  path = substitute segs vals →
  (∀ vals', length vals' = length (placeholders segs) →
            path = substitute segs vals' → vals' = vals) →
  Route._match r path = Some (list_to_map (zip (placeholders segs) (VStr <$> vals))).
Proof.
  intros Hp Hnd Hnl Hlen Hsub Huniq. rewrite (template_match r segs path Hp).
  destruct (exec_complete path segs Hnl 0 ∅ vals Hlen Hsub) as [m Hm]. rewrite Hm.
  apply (exec_sound path segs Hnl) in Hm as (vals' & Hlen' & Hsub' & -> & _).
  rewrite (Huniq vals' Hlen' Hsub').
  by rewrite (groupdict_record _ _ _ Hnd Hlen).
Qed.

Lemma template_match_none (r : Route.t) (segs : list segment) (path : string) :
  re.prog (Route._re r) = re.Bol :: body_ops segs ++ [re.Eol] →
  no_newline path = true →
  (∀ vals, path ≠ substitute segs vals) →
  Route._match r path = None.
Proof.
  intros Hp Hnl Hno. rewrite (template_match r segs path Hp).
  destruct (re.exec path _ 0 [] ∅) as [m|] eqn:Hm; [|done].
  apply (exec_sound path segs Hnl) in Hm as (vals & _ & Hsub & _).
  by destruct (Hno vals).
Qed.

Lemma root_router_routes (endpoint : gmap string Attr) :
  ∃ r1 r2 r3 r4,
    demo.root_router endpoint = Some (Router.mk [r1; r2; r3; r4])
    ∧ (re.prog (Route._re r1) = re.Bol :: body_ops [Text "/"] ++ [re.Eol]
       ∧ Route._methods r1 = ["GET"]
       ∧ Route._instance r1 = endpoint ∧ Route._callback r1 = "index")
    ∧ (re.prog (Route._re r2) = re.Bol :: body_ops [Text "/"] ++ [re.Eol]
       ∧ Route._methods r2 = ["POST"]
       ∧ Route._instance r2 = endpoint ∧ Route._callback r2 = "new_url")
    ∧ (re.prog (Route._re r3)
       = re.Bol :: body_ops [Text "/"; Placeholder "short_id"; Text "+"] ++ [re.Eol]
       ∧ Route._methods r3 = ["GET"; "POST"]
       ∧ Route._instance r3 = endpoint ∧ Route._callback r3 = "details")
    ∧ (re.prog (Route._re r4)
       = re.Bol :: body_ops [Text "/"; Placeholder "short_id"] ++ [re.Eol]
       ∧ Route._methods r4 = ["GET"; "POST"]
       ∧ Route._instance r4 = endpoint ∧ Route._callback r4 = "follow_url").
Proof. do 4 eexists. split; [reflexivity|]. repeat split. Qed.

Lemma handles_route_false (r : Route.t) (route method : string) :
  Route._match r route = None ∨ method ∉ Route._methods r →
  Route.handles_route r route method = false.
Proof.
  intros H. apply not_true_is_false. rewrite handles_route_spec.
  intros [[? Hm] Hin]. destruct H as [H|H]; [congruence|done].
Qed.

Lemma match_endpoints_skip (r : Route.t) (es : list Route.t) (route method : string) :
  Route._match r route = None ∨ method ∉ Route._methods r →
  Router.match_endpoints (r :: es) route method
  = Router.match_endpoints es route method.
Proof. intros H. cbn [Router.match_endpoints]. by rewrite handles_route_false. Qed.

Lemma handle_deferred (r : Route.t) (route method : string) (kw : gmap string Value)
    (es : list Route.t) :
  Route._match r route = Some kw →
  method ∈ Route._methods r →
  Router.match_endpoints (r :: es) route method
  = deferred (Route._instance r) (Route._callback r) kw.
Proof.
  intros Hm Hin. cbn [Router.match_endpoints].
  assert (Route.handles_route r route method = true) as ->
    by (apply handles_route_spec; eauto).
  unfold Route.handle, deferred, getattr. rewrite Hm.
  by destruct (Route._instance r !! Route._callback r) as [[|f]|].
Qed.

Lemma root_router_slash (r1 r2 : Route.t) (path : string) :
  re.prog (Route._re r1) = re.Bol :: body_ops [Text "/"] ++ [re.Eol] →
  re.prog (Route._re r2) = re.Bol :: body_ops [Text "/"] ++ [re.Eol] →
  no_newline path = true → path ≠ "/" →
  Route._match r1 path = None ∧ Route._match r2 path = None.
Proof.
  intros Hp1 Hp2 Hpnl Hne.
  split; [apply (template_match_none r1 [Text "/"])|
          apply (template_match_none r2 [Text "/"])]; try done;
    intros vals ->; by apply Hne.
Qed.

Lemma root_router_details (endpoint : gmap string Attr) (id method : string) :
  no_newline id = true →
  method ∈ ["GET"; "POST"] →
  ∃ router,
    demo.root_router endpoint = Some router
    ∧ Router.match_ router ("/" +:+ id +:+ "+") method
      = deferred endpoint "details" {[ "short_id" := VStr id ]}.
Proof.
  intros Hnl Hmethod.
  destruct (root_router_routes endpoint)
    as (r1 & r2 & r3 & r4 & Hr & (Hp1 & _) & (Hp2 & _) & (Hp3 & Hm3 & Hi3 & Hc3) & _).
  exists (Router.mk [r1; r2; r3; r4]). split; [done|].
  unfold Router.match_. cbn [Router.endpoints].
  assert (no_newline ("/" +:+ id +:+ "+") = true) as Hpnl.
  { rewrite !no_newline_app, Hnl. reflexivity. }
  destruct (root_router_slash r1 r2 ("/" +:+ id +:+ "+") Hp1 Hp2 Hpnl) as [H1 H2].
  { rewrite app_cons, app_empty_l. intros [= H]. by destruct id. }
  rewrite (match_endpoints_skip r1), (match_endpoints_skip r2) by (by left).
  rewrite <- Hi3, <- Hc3. apply handle_deferred; [|by rewrite Hm3].
  apply (template_match_unique r3 [Text "/"; Placeholder "short_id"; Text "+"]
           _ [id]); try done.
  - apply (bool_decide_unpack _). reflexivity.
  - intros [|v [|??]] Hlen; try done. cbn [substitute]. rewrite app_empty_r.
    intros H. apply (inj (String.app "/")) in H.
    by rewrite (app_cancel_r _ _ _ H).
Qed.

Lemma root_router_follow_url (endpoint : gmap string Attr) (id method : string) :
  no_newline id = true →
  method ∈ ["GET"; "POST"] →
  id ≠ "" → (∀ x, id ≠ x +:+ "+") →
  ∃ router,
    demo.root_router endpoint = Some router
    ∧ Router.match_ router ("/" +:+ id) method
      = deferred endpoint "follow_url" {[ "short_id" := VStr id ]}.
Proof.
  intros Hnl Hmethod Hne Hplus.
  destruct (root_router_routes endpoint)
    as (r1 & r2 & r3 & r4 & Hr & (Hp1 & _) & (Hp2 & _) & (Hp3 & _)
        & (Hp4 & Hm4 & Hi4 & Hc4)).
  exists (Router.mk [r1; r2; r3; r4]). split; [done|].
  unfold Router.match_. cbn [Router.endpoints].
  assert (no_newline ("/" +:+ id) = true) as Hpnl.
  { rewrite no_newline_app, Hnl. reflexivity. }
  destruct (root_router_slash r1 r2 ("/" +:+ id) Hp1 Hp2 Hpnl) as [H1 H2].
  { rewrite app_cons, app_empty_l. intros [= H]. done. }
  rewrite (match_endpoints_skip r1), (match_endpoints_skip r2) by (by left).
  rewrite (match_endpoints_skip r3).
  2:{ left. apply (template_match_none r3 [Text "/"; Placeholder "short_id"; Text "+"]);
        try done.
      intros [|v vs]; cbn [substitute]; rewrite app_empty_r; intros H;
        apply (inj (String.app "/")) in H.
      - by apply (Hplus "").
      - by apply (Hplus v). }
  rewrite <- Hi4, <- Hc4. apply handle_deferred; [|by rewrite Hm4].
  apply (template_match_unique r4 [Text "/"; Placeholder "short_id"] _ [id]);
    try done.
  - apply (bool_decide_unpack _). reflexivity.
  - cbn [substitute]. by rewrite app_empty_r.
  - intros [|v [|??]] Hlen; try done. cbn [substitute]. rewrite !app_empty_r.
    intros H. apply (inj (String.app "/")) in H. by rewrite H.
Qed.

(** The four routes of the demo, in their order. A path made of a slash,
    an identifier and a final plus sign goes to [details] with the
    identifier (which may be empty, or itself end in a plus sign); a path
    of a slash and a non-empty identifier that does not end in a plus sign
    goes to [follow_url]; the bare slash goes to [index] under [GET] and to
    [new_url] under [POST]. Identifiers are taken without newline. *)
Theorem demo_routes_in_order (endpoint : gmap string Attr) (id method : string) :
  no_newline id = true →
  method ∈ ["GET"; "POST"] →
  ∃ router,
    demo.root_router endpoint = Some router
    ∧ Router.match_ router ("/" +:+ id +:+ "+") method
      = deferred endpoint "details" {[ "short_id" := VStr id ]}
    ∧ (id ≠ "" → (∀ x, id ≠ x +:+ "+") →
       Router.match_ router ("/" +:+ id) method
       = deferred endpoint "follow_url" {[ "short_id" := VStr id ]})
    ∧ Router.match_ router "/" "GET" = deferred endpoint "index" ∅
    ∧ Router.match_ router "/" "POST" = deferred endpoint "new_url" ∅.
Proof.
  intros Hnl Hmethod.
  destruct (root_router_details endpoint id method Hnl Hmethod) as (router & Hr & Hd).
  exists router. split; [done|]. split; [done|]. split.
  { intros Hne Hplus.
    destruct (root_router_follow_url endpoint id method Hnl Hmethod Hne Hplus)
      as (router' & Hr' & Hf). by simplify_eq. }
  destruct (root_router_routes endpoint)
    as (r1 & r2 & r3 & r4 & Hr' & (Hp1 & Hm1 & Hi1 & Hc1) & (Hp2 & Hm2 & Hi2 & Hc2) & _).
  rewrite Hr in Hr'. injection Hr' as ->.
  unfold Router.match_. cbn [Router.endpoints]. split.
  - rewrite <- Hi1, <- Hc1. apply handle_deferred; [|rewrite Hm1; left].
    apply (template_match_unique r1 [Text "/"] "/" []); try done.
    + constructor.
    + by intros [|??].
  - rewrite (match_endpoints_skip r1 _ "/" "POST").
    2:{ right. rewrite Hm1. by intros [[=]|[]%elem_of_nil]%elem_of_cons. }
    rewrite <- Hi2, <- Hc2. apply handle_deferred; [|rewrite Hm2; left].
    apply (template_match_unique r2 [Text "/"] "/" []); try done.
    + constructor.
    + by intros [|??].
Qed.

Lemma demo_routes_in_order_witness :
  no_newline "MFRGG===" = true
  ∧ "GET" ∈ ["GET"; "POST"]
  ∧ ∃ router,
      demo.root_router demo_endpoint = Some router
      ∧ Router.match_ router ("/" +:+ "MFRGG===" +:+ "+") "GET"
        = deferred demo_endpoint "details" {[ "short_id" := VStr "MFRGG===" ]}
      ∧ ("MFRGG===" ≠ "" → (∀ x, "MFRGG===" ≠ x +:+ "+") →
         Router.match_ router ("/" +:+ "MFRGG===") "GET"
         = deferred demo_endpoint "follow_url" {[ "short_id" := VStr "MFRGG===" ]})
      ∧ Router.match_ router "/" "GET" = deferred demo_endpoint "index" ∅
      ∧ Router.match_ router "/" "POST" = deferred demo_endpoint "new_url" ∅.
Proof.
  split; [reflexivity|]. split; [left|].
  apply (demo_routes_in_order demo_endpoint "MFRGG===" "GET"); [reflexivity|left].
Defined.

(** ** The demo's hash: base 32 *)

Lemma b32tab_inj (a4 a3 a2 a1 a0 b4 b3 b2 b1 b0 : bool) :
  base64.b32tab a4 a3 a2 a1 a0 = base64.b32tab b4 b3 b2 b1 b0 →
  a4 = b4 ∧ a3 = b3 ∧ a2 = b2 ∧ a1 = b1 ∧ a0 = b0.
Proof.
  destruct a4, a3, a2, a1, a0, b4, b3, b2, b1, b0; vm_compute; intros H;
    first [done | discriminate H].
Qed.

Lemma b32tab_char (a4 a3 a2 a1 a0 : bool) :
  b32char (base64.b32tab a4 a3 a2 a1 a0) = true
  ∧ base64.b32tab a4 a3 a2 a1 a0 ≠ "="%char.
Proof. destruct a4, a3, a2, a1, a0; split; vm_compute; congruence. Qed.

Lemma by_fives (P : string → Prop) :
  P "" →
  (∀ a, P (String a "")) →
  (∀ a b, P (String a (String b ""))) →
  (∀ a b c, P (String a (String b (String c "")))) →
  (∀ a b c d, P (String a (String b (String c (String d ""))))) →
  (∀ a b c d e rest, P rest →
     P (String a (String b (String c (String d (String e rest)))))) →
  ∀ s, P s.
Proof.
  intros H0 H1 H2 H3 H4 H5. fix IH 1.
  intros [|a [|b [|c [|d [|e rest]]]]];
    [exact H0|apply H1|apply H2|apply H3|apply H4|apply H5, IH].
Qed.

Ltac b32_bits :=
  repeat match goal with
    | H : base64.b32tab _ _ _ _ _ = base64.b32tab _ _ _ _ _ |- _ =>
        apply b32tab_inj in H; destruct H as (? & ? & ? & ? & ?)
    | H : base64.b32tab ?a ?b ?c ?d ?e = _ |- _ =>
        exfalso; exact (proj2 (b32tab_char a b c d e) H)
    | H : _ = base64.b32tab ?a ?b ?c ?d ?e |- _ =>
        exfalso; exact (proj2 (b32tab_char a b c d e) (eq_sym H))
    end.

Lemma b32encode_inj (s s' : string) :
  base64.b32encode s = base64.b32encode s' → s = s'.
Proof.
  revert s'. induction s as [|a|a b|a b c|a b c d|a b c d e rest IH] using by_fives;
    intros [|a' [|b' [|c' [|d' [|e' rest']]]]];
    cbn [base64.b32encode];
    repeat match goal with x : ascii |- _ => destruct x end;
    unfold base64.quantum, base64.zero; cbn [str_take];
    rewrite ?app_cons, ?app_empty_l; intros H; try discriminate H;
    simplify_eq; b32_bits; subst; try done.
  do 5 f_equal. by apply IH.
Qed.

Lemma str_forall_app (p : ascii → bool) (s t : string) :
  str_forall p (s +:+ t) = str_forall p s && str_forall p t.
Proof.
  induction s as [|c s IH]; [done|]. rewrite app_cons. cbn [str_forall].
  by rewrite IH, andb_assoc.
Qed.

Lemma str_forall_impl (p q : ascii → bool) (s : string) :
  (∀ c, p c = true → q c = true) →
  str_forall p s = true → str_forall q s = true.
Proof.
  intros Hpq. induction s as [|c s IH]; [done|]. cbn [str_forall].
  intros [Hc Hs]%andb_true_iff. by rewrite (Hpq c Hc), (IH Hs).
Qed.

Lemma quantum_chars (a b c d e : ascii) :
  ∃ c1 c2 c3 c4 c5 c6 c7 c8,
    base64.quantum a b c d e
    = String c1 (String c2 (String c3 (String c4 (String c5 (String c6
        (String c7 (String c8 ""))))))) ∧
    Forall (λ x, b32char x = true ∧ x ≠ "="%char) [c1; c2; c3; c4; c5; c6; c7; c8].
Proof.
  destruct a, b, c, d, e. unfold base64.quantum.
  do 8 eexists. split; [reflexivity|].
  repeat constructor; apply b32tab_char.
Qed.

Ltac b32_quantum :=
  match goal with
  | |- context [base64.quantum ?a ?b ?c ?d ?e] =>
      destruct (quantum_chars a b c d e) as (?c1&?c2&?c3&?c4&?c5&?c6&?c7&?c8&->&?Hc)
  end;
  cbn [str_take]; rewrite ?app_cons, ?app_empty_l; cbn [str_forall];
  repeat match goal with
    | H : Forall _ (_ :: _) |- _ => apply Forall_cons in H; destruct H as [[-> _] H]
    end.

Lemma b32encode_chars (s : string) :
  str_forall b32char (base64.b32encode s) = true
  ∧ String.length (base64.b32encode s) = 8 * ((String.length s + 4) / 5).
Proof.
  induction s as [|a|a b|a b c|a b c d|a b c d e rest IH] using by_fives;
    cbn [base64.b32encode]; [done|..].
  1-4: b32_quantum; split; reflexivity.
  b32_quantum. destruct IH as [-> IHl]. split; [done|].
  cbn [String.length]. rewrite IHl.
  replace (S (S (S (S (S (String.length rest))))) + 4)
    with ((String.length rest + 4) + 1 * 5) by lia.
  rewrite Nat.div_add by done. lia.
Qed.

(** The hash of a link is a base 32 text: capital letters, the digits 2 to
    7 and equals signs, eight characters for every five characters of the
    link or part of five. Only the empty link has the empty hash. *)
Theorem hash_is_base32_text (link : string) :
  str_forall b32char (ShorteningService.hash_link link) = true
  ∧ String.length (ShorteningService.hash_link link)
    = 8 * ((String.length link + 4) / 5)
  ∧ (ShorteningService.hash_link link = "" ↔ link = "").
Proof.
  unfold ShorteningService.hash_link.
  destruct (b32encode_chars link) as [Hchars Hlen]. split; [done|]. split; [done|].
  split; [|by intros ->].
  intros Hempty. rewrite Hempty in Hlen. destruct link as [|c link]; [done|].
  cbn [String.length] in Hlen.
  replace (S (String.length link) + 4) with (String.length link + 1 * 5) in Hlen by lia.
  rewrite Nat.div_add in Hlen by done. lia.
Qed.

(** Two links have the same hash only if they are the same link. *)
Theorem hash_link_is_injective (link link' : string) :
  ShorteningService.hash_link link = ShorteningService.hash_link link'
  ↔ link = link'.
Proof.
  unfold ShorteningService.hash_link. split; [|by intros ->].
  apply b32encode_inj.
Qed.

(** The paths made from the hash of a non-empty link reach the handlers
    they are meant for: the hash after a slash goes to [follow_url], the
    same followed by a plus sign to [details], each with the hash as
    [short_id]. *)
Theorem hash_paths_reach_their_handlers (endpoint : gmap string Attr)
    (link method : string) :
  link ≠ "" →
  method ∈ ["GET"; "POST"] →
  let short_id := ShorteningService.hash_link link in
  ∃ router,
    demo.root_router endpoint = Some router
    ∧ Router.match_ router ("/" +:+ short_id) method
      = deferred endpoint "follow_url" {[ "short_id" := VStr short_id ]}
    ∧ Router.match_ router ("/" +:+ short_id +:+ "+") method
      = deferred endpoint "details" {[ "short_id" := VStr short_id ]}.
Proof.
  intros Hlink Hmethod short_id. subst short_id. unfold ShorteningService.hash_link.
  destruct (b32encode_chars link) as [Hchars Hlen].
  assert (no_newline (base64.b32encode link) = true) as Hnl.
  { revert Hchars. apply str_forall_impl. intros c Hc.
    destruct (Ascii.eqb_spec c newline) as [->|]; [discriminate Hc|done]. }
  destruct (root_router_details endpoint _ method Hnl Hmethod) as (router & Hr & Hd).
  destruct (root_router_follow_url endpoint (base64.b32encode link) method)
    as (router' & Hr' & Hf); try done.
  - intros Hempty. rewrite Hempty in Hlen. destruct link as [|c link]; [done|].
    cbn [String.length] in Hlen.
    replace (S (String.length link) + 4) with (String.length link + 1 * 5) in Hlen by lia.
    rewrite Nat.div_add in Hlen by done. lia.
  - intros x Hx. rewrite Hx, str_forall_app, andb_comm in Hchars. discriminate Hchars.
  - exists router. split; [done|]. split; [|done]. by simplify_eq.
Qed.

Lemma hash_paths_reach_their_handlers_witness :
  "abc" ≠ ""
  ∧ "GET" ∈ ["GET"; "POST"]
  ∧ ∃ router,
      demo.root_router demo_endpoint = Some router
      ∧ Router.match_ router ("/" +:+ ShorteningService.hash_link "abc") "GET"
        = deferred demo_endpoint "follow_url"
            {[ "short_id" := VStr (ShorteningService.hash_link "abc") ]}
      ∧ Router.match_ router ("/" +:+ ShorteningService.hash_link "abc" +:+ "+") "GET"
        = deferred demo_endpoint "details"
            {[ "short_id" := VStr (ShorteningService.hash_link "abc") ]}.
Proof.
  split; [done|]. split; [left|].
  apply (hash_paths_reach_their_handlers demo_endpoint "abc" "GET"); [done|left].
Defined.

(** ** The demo's service *)

Lemma integer_decimal (z : Z) :
  (- 2 ^ 63 <= z < 2 ^ 63)%Z → redis.integer (redis.decimal z) = Some z.
Proof.
  intros [Hlo Hhi]. unfold redis.integer, redis.decimal.
  rewrite DecimalString.NilZero.isi.
  2,3: destruct z; cbn [Z.to_int]; intros [= H];
       by apply DecimalPos.Unsigned.to_uint_nonnil in H.
  cbv zeta. rewrite DecimalZ.of_to, String.eqb_refl.
  apply Z.leb_le in Hlo. apply Z.ltb_lt in Hhi. by rewrite Hlo, Hhi.
Qed.

Lemma key_families_apart (a b : string) :
  "url-target:" +:+ a ≠ "click-count:" +:+ b.
Proof. rewrite !app_cons. intros [=]. Qed.

Lemma track_view_frame (db db' : gmap string string) (id : string) :
  ShorteningService.track_view db id = Some db' →
  ∃ z, db' = <["click-count:" +:+ id := redis.decimal z]> db.
Proof.
  unfold ShorteningService.track_view, redis.incr. intros H.
  repeat case_match; simplify_eq/=; eauto.
Qed.

(** Following a short link answers with the target stored before the
    visit and touches one counter: no target changes, and no counter of
    another identifier. *)
Theorem follow_url_changes_one_counter (db db' : gmap string string)
    (short_id : string) (out : gmap string Value) :
  ShorteningEndpoint.follow_url db short_id = Some (db', out) →
  out = {[ "url" := ShorteningService.get_url_by_hash db short_id ]}
  ∧ ∀ id,
      ShorteningService.get_url_by_hash db' id = ShorteningService.get_url_by_hash db id
      ∧ (id ≠ short_id →
         ShorteningService.get_view_count db' id
         = ShorteningService.get_view_count db id).
Proof.
  unfold ShorteningEndpoint.follow_url. intros H.
  destruct (ShorteningService.track_view db short_id) as [db1|] eqn:Ht; [|done].
  injection H as <- <-. split; [done|]. intros id.
  apply track_view_frame in Ht as [z ->].
  unfold ShorteningService.get_url_by_hash, ShorteningService.get_view_count,
    redis.get, dict_get.
  split.
  - rewrite lookup_insert_ne; [done|].
    intros H. by apply (key_families_apart id short_id).
  - intros Hne. rewrite lookup_insert_ne; [done|].
    intros H. apply Hne. by apply (inj (String.app "click-count:")) in H.
Qed.

Lemma follow_url_changes_one_counter_witness :
  let db : gmap string string := {[ "url-target:MFRGG===" := "abc" ]} in
  let db' : gmap string string := <["click-count:MFRGG===" := "1"]> db in
  let out : gmap string Value := {[ "url" := VStr "abc" ]} in
  ShorteningEndpoint.follow_url db "MFRGG===" = Some (db', out)
  ∧ out = {[ "url" := ShorteningService.get_url_by_hash db "MFRGG===" ]}
  ∧ ∀ id,
      ShorteningService.get_url_by_hash db' id = ShorteningService.get_url_by_hash db id
      ∧ (id ≠ "MFRGG===" →
         ShorteningService.get_view_count db' id
         = ShorteningService.get_view_count db id).
Proof.
  intros db db' out.
  assert (ShorteningEndpoint.follow_url db "MFRGG===" = Some (db', out)) as H
    by reflexivity.
  split; [exact H|].
  exact (follow_url_changes_one_counter db db' "MFRGG===" out H).
Defined.

(** Shortening a link answers with its hash, stores the link under that
    hash, and touches nothing else: no counter changes, and no target of
    another hash. *)
Theorem new_url_changes_one_target (db db' : gmap string string)
    (link : string) (out : gmap string Value) :
  ShorteningEndpoint.new_url db (VStr link) = Some (db', out) →
  out = {[ "hash" := VStr (ShorteningService.hash_link link) ]}
  ∧ ShorteningService.get_url_by_hash db' (ShorteningService.hash_link link) = VStr link
  ∧ ∀ id,
      ShorteningService.get_view_count db' id = ShorteningService.get_view_count db id
      ∧ (id ≠ ShorteningService.hash_link link →
         ShorteningService.get_url_by_hash db' id
         = ShorteningService.get_url_by_hash db id).
Proof.
  cbn [ShorteningEndpoint.new_url]. intros [= <- <-]. split; [done|].
  unfold ShorteningService.get_url_by_hash, ShorteningService.get_view_count,
    ShorteningService.persist_hash_link_pair, redis.get, redis.set, dict_get.
  split; [by rewrite lookup_insert_eq|]. intros id. split.
  - rewrite lookup_insert_ne; [done|]. apply key_families_apart.
  - intros Hne. rewrite lookup_insert_ne; [done|].
    intros H. apply Hne. by apply (inj (String.app "url-target:")) in H.
Qed.

Lemma new_url_changes_one_target_witness :
  let db : gmap string string := {[ "click-count:MFRGG===" := "4" ]} in
  let db' : gmap string string := <["url-target:MFRGG===" := "abc"]> db in
  let out : gmap string Value := {[ "hash" := VStr "MFRGG===" ]} in
  ShorteningEndpoint.new_url db (VStr "abc") = Some (db', out)
  ∧ out = {[ "hash" := VStr (ShorteningService.hash_link "abc") ]}
  ∧ ShorteningService.get_url_by_hash db' (ShorteningService.hash_link "abc")
    = VStr "abc"
  ∧ ∀ id,
      ShorteningService.get_view_count db' id = ShorteningService.get_view_count db id
      ∧ (id ≠ ShorteningService.hash_link "abc" →
         ShorteningService.get_url_by_hash db' id
         = ShorteningService.get_url_by_hash db id).
Proof.
  intros db db' out.
  assert (ShorteningEndpoint.new_url db (VStr "abc") = Some (db', out)) as H
    by reflexivity.
  split; [exact H|].
  exact (new_url_changes_one_target db db' "abc" out H).
Defined.

Lemma shorten_all_snoc (db : gmap string string) (links : list string) (link : string) :
  shorten_all db (links ++ [link])
  = ShorteningService.persist_hash_link_pair (shorten_all db links)
      (ShorteningService.hash_link link) link.
Proof. unfold shorten_all. by rewrite foldl_app. Qed.

(** Shortened links do not collide: after any number of links has been
    shortened, whatever the store held before, the hash of each of them
    still leads to that link. *)
Theorem shortened_links_do_not_collide (db : gmap string string)
    (links : list string) (link : string) :
  link ∈ links →
  ShorteningService.get_url_by_hash (shorten_all db links)
    (ShorteningService.hash_link link) = VStr link.
Proof.
  induction links as [|l links IH] using rev_ind; [by intros ?%elem_of_nil|].
  intros Hin. rewrite shorten_all_snoc.
  unfold ShorteningService.get_url_by_hash, ShorteningService.persist_hash_link_pair,
    redis.get, redis.set, dict_get.
  destruct (decide (l = link)) as [->|Hne].
  - by rewrite lookup_insert_eq.
  - rewrite lookup_insert_ne.
    + apply IH. apply elem_of_app in Hin as [Hin|Hin%list_elem_of_singleton]; [done|].
      by destruct Hne.
    + intros H. apply (inj (String.app "url-target:")) in H.
      by apply b32encode_inj in H.
Qed.

Lemma shortened_links_do_not_collide_witness :
  "b" ∈ ["a"; "b"; "ab"]
  ∧ ShorteningService.get_url_by_hash (shorten_all ∅ ["a"; "b"; "ab"])
      (ShorteningService.hash_link "b") = VStr "b".
Proof.
  assert ("b" ∈ ["a"; "b"; "ab"]) as H by (right; left).
  split; [exact H|].
  exact (shortened_links_do_not_collide ∅ ["a"; "b"; "ab"] "b" H).
Defined.

Lemma visits_from (n : nat) : ∀ (db : gmap string string) (id : string) (z : Z),
  (0 <= z)%Z → (z + Z.of_nat n < 2 ^ 63)%Z →
  (z = 0%Z ∧ db !! ("click-count:" +:+ id) = None
   ∨ db !! ("click-count:" +:+ id) = Some (redis.decimal z)) →
  ∃ db',
    visits n db id = Some db'
    ∧ (n ≠ 0 → db' !! ("click-count:" +:+ id) = Some (redis.decimal (z + Z.of_nat n)))
    ∧ ∀ id', ShorteningService.get_url_by_hash db' id'
             = ShorteningService.get_url_by_hash db id'.
Proof.
  induction n as [|n IH]; intros db id z Hz Hn Hdb.
  { exists db. by split. }
  cbn [visits]. unfold ShorteningEndpoint.follow_url, ShorteningService.track_view,
    redis.incr.
  assert (match db !! ("click-count:" +:+ id) with
          | Some s => redis.integer s | None => Some 0%Z end = Some z) as ->.
  { destruct Hdb as [[-> ->] | ->]; [done|]. apply integer_decimal. lia. }
  assert ((z + 1 <? 2 ^ 63)%Z = true) as -> by (apply Z.ltb_lt; lia).
  cbn [fmap option_fmap option_map fst].
  destruct (IH (<["click-count:" +:+ id := redis.decimal (z + 1)]> db) id (z + 1)%Z)
    as (db' & Hv & Hc & Hu); [lia|lia|right; by rewrite lookup_insert_eq|].
  exists db'. split; [done|]. split.
  - intros _. destruct n as [|n].
    + cbn [visits] in Hv. injection Hv as <-. by rewrite lookup_insert_eq.
    + rewrite Hc by done. do 2 f_equal. lia.
  - intros id'. rewrite Hu.
    unfold ShorteningService.get_url_by_hash, redis.get, dict_get.
    rewrite lookup_insert_ne; [done|].
    intros H. by apply (key_families_apart id' id).
Qed.

(** The view count counts the visits: a short link that has no counter
    yet and is followed [n] times, as long as [n] fits a 64-bit signed
    integer, has the decimal text of [n] as its view count, and every
    target is as before. *)
Theorem view_count_counts_visits (db : gmap string string) (id : string) (n : nat) :
  ShorteningService.get_view_count db id = VNone →
  0 < n → (Z.of_nat n < 2 ^ 63)%Z →
  ∃ db',
    visits n db id = Some db'
    ∧ ShorteningService.get_view_count db' id = VStr (redis.decimal (Z.of_nat n))
    ∧ ∀ id', ShorteningService.get_url_by_hash db' id'
             = ShorteningService.get_url_by_hash db id'.
Proof.
  intros Hnone Hn Hmax.
  assert (db !! ("click-count:" +:+ id) = None) as Hdb.
  { revert Hnone. unfold ShorteningService.get_view_count, redis.get, dict_get.
    by case_match. }
  destruct (visits_from n db id 0%Z) as (db' & Hv & Hc & Hu); [lia|lia|by left|].
  exists db'. split; [done|]. split; [|done].
  unfold ShorteningService.get_view_count, redis.get, dict_get.
  rewrite Hc by lia. by rewrite Z.add_0_l.
Qed.

Lemma view_count_counts_visits_witness :
  let db : gmap string string := {[ "url-target:MFRGG===" := "abc" ]} in
  ShorteningService.get_view_count db "MFRGG===" = VNone
  ∧ 0 < 12
  ∧ (Z.of_nat 12 < 2 ^ 63)%Z
  ∧ ∃ db',
      visits 12 db "MFRGG===" = Some db'
      ∧ ShorteningService.get_view_count db' "MFRGG===" = VStr "12"
      ∧ ∀ id', ShorteningService.get_url_by_hash db' id'
               = ShorteningService.get_url_by_hash db id'.
Proof.
  intros db.
  assert (ShorteningService.get_view_count db "MFRGG===" = VNone) as H1 by reflexivity.
  assert (0 < 12) as H2 by lia.
  assert (Z.of_nat 12 < 2 ^ 63)%Z as H3 by lia.
  split; [exact H1|]. split; [exact H2|]. split; [exact H3|].
  exact (view_count_counts_visits db "MFRGG===" 12 H1 H2 H3).
Defined.
